(** * BlueBite: the palette extractor of [extract-color-palettes.py]

    A shallow embedding of the script's [extract_color_palette] and of the
    batch loop of [main], together with the properties stated about them.

    Python values are embedded as follows.
    - [int] is [Z] (unbounded, as in Python).
    - [float] is IEEE 754 binary64.  A finite double is a rational number, so
      it is carried as a [Q] in lowest terms; every arithmetic result is
      rounded to the nearest double, ties to even, by [fl] below.
    - a raised exception is the [Raise] branch of [result].
    - the image that [extract_color_palette] receives is the pixel list that
      its first lines obtain from it (conversion to RGBA where the mode is
      another one, then [list(image.getdata())]): a [list pixel].  The call
      into the image library is [rgba_data] in the batch loop. *)

From Stdlib Require Import ZArith QArith Qround Qpower Qreduction Qabs.
From Stdlib Require Import List String Ascii Lia Lqa Bool.
From Stdlib Require Import Floats.SpecFloat.
From stdpp Require Import base decidable option list sorting gmap strings.
Import ListNotations.

Local Open Scope Z_scope.

(** ** Exceptions *)

Inductive exception : Type :=
  | ZeroDivisionError
  | ValueError (msg : string)
  | OtherError (msg : string).

Inductive result (A : Type) : Type :=
  | Ok (a : A)
  | Raise (e : exception).

Arguments Ok {A} a.
Arguments Raise {A} e.

Definition bind {A B} (m : result A) (k : A -> result B) : result B :=
  match m with
  | Ok a => k a
  | Raise e => Raise e
  end.

(** The computation returned. *)
Definition is_Ok {A} (m : result A) : Prop :=
  match m with
  | Ok _ => True
  | Raise _ => False
  end.

Global Instance is_Ok_dec {A} (m : result A) : Decision (is_Ok m).
Proof. destruct m; simpl; apply _. Defined.

Notation "'let*' x ':=' m 'in' k" := (bind m (fun x => k))
  (at level 10, x pattern, m at level 100, k at level 200).

(** A [for] loop that appends one computed item per element. *)
Fixpoint for_each {A B} (f : A -> result B) (l : list A) : result (list B) :=
  match l with
  | [] => Ok []
  | x :: t =>
      let* y := f x in
      let* ys := for_each f t in
      Ok (y :: ys)
  end.

(** ** Binary64 arithmetic *)

Module Float.

Local Open Scope Q_scope.

(** Nearest integer, halves to the even neighbour. *)
Definition rne (x : Q) : Z :=
  let f := Qfloor x in
  match (x - inject_Z f ?= 1 # 2)%Q with
  | Lt => f
  | Gt => (f + 1)%Z
  | Eq => if Z.even f then f else (f + 1)%Z
  end.

(** [ilog2 x] is the integer [k] with [2^k <= x < 2^(k+1)], for [0 < x]. *)
Definition ilog2 (x : Q) : Z :=
  let k := (Z.log2 (Qnum x) - Z.log2 (Zpos (Qden x)))%Z in
  if Qle_bool (2 ^ k) x then k else (k - 1)%Z.

(** Exponent of the unit in the last place of the binade of [x]:
    53 significant bits, and no exponent below that of the subnormals. *)
Definition fexp (x : Q) : Z := Z.max (ilog2 x - 52) (-1074).

Definition fl_pos (x : Q) : Q :=
  let e := fexp x in Qred (inject_Z (rne (x / 2 ^ e)) * 2 ^ e).

(** The double nearest to the real [x], ties to even.  Overflow to infinity
    is not represented: the operands of this development stay below 2^1024
    in absolute value. *)
Definition fl (x : Q) : Q :=
  match Qnum x with
  | Z0 => 0
  | Zpos _ => fl_pos x
  | Zneg _ => Qred (- fl_pos (- x))
  end.

(** [a / b] on two [int]s: the correctly rounded quotient. *)
Definition truediv (a b : Z) : result Q :=
  if (b =? 0)%Z then Raise ZeroDivisionError
  else Ok (fl (inject_Z a / inject_Z b)).

(** [x * n] for a float [x] and an [int] [n] that is itself a double. *)
Definition mul (x : Q) (n : Z) : Q := fl (x * inject_Z n).

(** [round(x)]: the nearest [int], exact halves to even. *)
Definition round (x : Q) : Z := rne x.

(** [round(x, 2)]: the double nearest to the two-decimal number nearest to
    the exact value of [x] (exact halves to the even last digit). *)
Definition round2 (x : Q) : Q := fl (inject_Z (rne (x * 100)) / 100).

End Float.

(** ** Data model *)

(** One RGBA sample *)
Definition pixel : Type := Z * Z * Z * Z.

(** The quantized RGB key *)
Definition rgb : Type := Z * Z * Z.

Record PaletteEntry : Type := {
  color : string;
  pixelCount : Z;
  percentage : Q
}.

Definition channel (v : Z) : Prop := 0 <= v <= 255.

Definition pixel_wf (p : pixel) : Prop :=
  let '(r, g, b, a) := p in channel r /\ channel g /\ channel b /\ channel a.

(** A RasterImage: every sample a 4-tuple of 8-bit channels. *)
Definition image_wf (pixels : list pixel) : Prop := Forall pixel_wf pixels.

(** ** Formatting: [f'{v:02X}'] *)

Definition hex_digit (d : Z) : ascii :=
  match d with
  | 0 => "0" | 1 => "1" | 2 => "2" | 3 => "3" | 4 => "4" | 5 => "5"
  | 6 => "6" | 7 => "7" | 8 => "8" | 9 => "9" | 10 => "A" | 11 => "B"
  | 12 => "C" | 13 => "D" | 14 => "E" | _ => "F"
  end%char.

Fixpoint hex_digits (fuel : nat) (n : Z) (acc : string) : string :=
  match fuel with
  | O => acc
  | S fuel' =>
      let acc' := String (hex_digit (n mod 16)%Z) acc in
      if (n <? 16)%Z then acc' else hex_digits fuel' (n / 16)%Z acc'
  end.

(** Upper-case hexadecimal of a natural number. *)
Definition hex_upper (n : Z) : string :=
  hex_digits (S (Z.to_nat (Z.log2 n))) n "".

(** Zero fill to width 2, the sign counting towards the width. *)
Definition format_02X (v : Z) : string :=
  if (v <? 0)%Z then "-" ++ hex_upper (- v)%Z
  else if (v <? 16)%Z then "0" ++ hex_upper v
  else hex_upper v.

Definition hex_color (c : rgb) : string :=
  let '(r, g, b) := c in "#" ++ format_02X r ++ format_02X g ++ format_02X b.

(** ** [collections.Counter] over a list: a dict in insertion order *)

Section Counter.
Context {K : Type} `{EqDecision K}.

(** [self[k] = self.get(k, 0) + 1]: a present key keeps its position, a new
    key goes to the end. *)
Fixpoint increment (k : K) (d : list (K * Z)) : list (K * Z) :=
  match d with
  | [] => [(k, 1)]
  | (k', c) :: d' =>
      if decide (k = k') then (k', c + 1) :: d'
      else (k', c) :: increment k d'
  end.

Definition Counter (l : list K) : list (K * Z) :=
  fold_left (fun d k => increment k d) l [].

End Counter.

(** ** [list.sort(key=lambda x: x[1], reverse=True)]

    Python's sort is stable, also under [reverse=True]: the result is the one
    arrangement by descending key in which equal keys keep their order.  That
    arrangement is computed here by insertion. *)

Section Sort.
Context {K : Type}.

Fixpoint insert_desc (x : K * Z) (l : list (K * Z)) : list (K * Z) :=
  match l with
  | [] => [x]
  | y :: t =>
      if decide (y.2 <= x.2) then x :: y :: t else y :: insert_desc x t
  end.

Fixpoint sort_desc (l : list (K * Z)) : list (K * Z) :=
  match l with
  | [] => []
  | x :: t => insert_desc x (sort_desc t)
  end.

End Sort.

(** ** Slicing: [l[:n]] *)

Definition slice_to {A} (l : list A) (n : Z) : list A :=
  if n <? 0 then firstn (Z.to_nat (Z.of_nat (length l) + n)) l
  else firstn (Z.to_nat n) l.

(** ** [extract_color_palette] *)

Definition alpha (p : pixel) : Z := p.2.

(** [a > 127] *)
Definition is_opaque (p : pixel) : Prop := 127 < alpha p.

Global Instance is_opaque_dec (p : pixel) : Decision (is_opaque p).
Proof. unfold is_opaque. apply _. Defined.

Definition quantize_channel (v : Z) : result Z :=
  let* x := Float.truediv v 15 in
  Ok (Float.round x * 15).

Definition quantize (p : pixel) : result rgb :=
  let '(r, g, b, a) := p in
  let* qr := quantize_channel r in
  let* qg := quantize_channel g in
  let* qb := quantize_channel b in
  Ok (qr, qg, qb).

Definition format_entry (total : Z) (item : rgb * Z) : result PaletteEntry :=
  let '(c, count) := item in
  let hex := hex_color c in
  let* share := Float.truediv count total in
  let percentage := Float.mul share 100 in
  Ok {| color := hex; pixelCount := count;
        percentage := Float.round2 percentage |}.

Definition extract_color_palette
    (pixels : list pixel) (max_colors min_pixels : Z)
    : result (list PaletteEntry) :=
  let opaque_pixels := filter is_opaque pixels in
  match opaque_pixels with
  | [] => Ok []
  | _ :: _ =>
      let* quantized := for_each quantize opaque_pixels in
      let color_counts := Counter quantized in
      let filtered :=
        filter (fun item : rgb * Z => min_pixels <= item.2) color_counts in
      let filtered := sort_desc filtered in
      for_each (format_entry (Z.of_nat (length opaque_pixels)))
               (slice_to filtered max_colors)
  end.

(** ** [extract_png_from_svg]

    The [re.search] of the function looks for the leftmost place where the
    literal [href=], a double quote and [data:image/png;base64,] are followed
    by one or more characters other than the double quote and then by a
    double quote; the group is that run of characters. *)

Definition double_quote : ascii := "034"%char.

Definition href_prefix : string :=
  "href=" ++ String double_quote "data:image/png;base64,".

(** The rest of [s] after the prefix [p], when [s] starts with [p]. *)
Fixpoint strip_prefix (p s : string) : option string :=
  match p, s with
  | EmptyString, _ => Some s
  | String a p', String b s' =>
      if Ascii.eqb a b then strip_prefix p' s' else None
  | String _ _, EmptyString => None
  end.

(** The longest run without a double quote at the start of [s], and what
    follows it. *)
Fixpoint span_unquoted (s : string) : string * string :=
  match s with
  | EmptyString => (EmptyString, EmptyString)
  | String c s' =>
      if Ascii.eqb c double_quote then (EmptyString, s)
      else let '(run, rest) := span_unquoted s' in (String c run, rest)
  end.

(** A match that starts at the first character of [s]. *)
Definition match_here (s : string) : option string :=
  match strip_prefix href_prefix s with
  | None => None
  | Some after =>
      match span_unquoted after with
      | (String c run, String _ _) => Some (String c run)
      | _ => None
      end
  end.

Fixpoint re_search_png (svg_content : string) : option string :=
  match match_here svg_content with
  | Some png_base64 => Some png_base64
  | None =>
      match svg_content with
      | EmptyString => None
      | String _ s' => re_search_png s'
      end
  end.

(** ** The batch loop of [main]

    The file system, the base64 decoder, the image library and the standard
    output are outside the script; they enter as the operations the script
    calls, each of which may raise. *)

Record AssetPaletteResult : Type := {
  colors : list PaletteEntry;
  colorCount : Z
}.

(** The lines that the loop prints. *)
Inductive console_line : Type :=
  | Processing (name : string)
  | Found (n : Z)
  | Error (e : exception).

(** [output[k] = v] on a dict kept as its items in insertion order: a present
    key keeps its place and takes the new value, a new key goes to the
    end. *)
Fixpoint dict_set {V} (k : string) (v : V) (d : list (string * V))
    : list (string * V) :=
  match d with
  | [] => [(k, v)]
  | (k', v') :: d' =>
      if decide (k = k') then (k', v) :: d' else (k', v') :: dict_set k v d'
  end.

(** What the loop changes: the dict [output] and the console. *)
Record state : Type := {
  output : list (string * AssetPaletteResult);
  console : list console_line
}.

(** A statement: it may change the state, and it returns a value or raises.
    What it did to the state before raising stays done. *)
Definition io (A : Type) : Type := state -> state * result A.

Definition io_ret {A} (a : A) : io A := fun st => (st, Ok a).

Definition io_bind {A B} (m : io A) (k : A -> io B) : io B :=
  fun st =>
    match m st with
    | (st', Ok a) => k a st'
    | (st', Raise e) => (st', Raise e)
    end.

Notation "'let!' x ':=' m 'in' k" := (io_bind m (fun x => k))
  (at level 10, x pattern, m at level 100, k at level 200).

(** A call that leaves the state alone. *)
Definition io_lift {A} (m : result A) : io A := fun st => (st, m).

(** [try: body] with [except Exception as e: handler] *)
Definition io_try {A} (body : io A) (handler : exception -> io A) : io A :=
  fun st =>
    match body st with
    | (st', Ok a) => (st', Ok a)
    | (st', Raise e) => handler e st'
    end.

(** [output[k] = v] *)
Definition set_output (k : string) (v : AssetPaletteResult) : io unit :=
  fun st =>
    ({| output := dict_set k v (output st); console := console st |}, Ok tt).

(** [for x in l: body] *)
Fixpoint io_for {A} (body : A -> io unit) (l : list A) : io unit :=
  match l with
  | [] => io_ret tt
  | x :: t =>
      let! _ := body x in
      io_for body t
  end.

Section Main.
(** [pathlib.Path] values, [bytes] and [PIL.Image] objects *)
Variables (Path Bytes Image : Type).
(** [svg_path.stem] and [str(svg_path)] *)
Variable stem : Path -> string.
Variable path_str : Path -> string.
(** [open(svg_path, 'r', encoding='utf-8')] and [f.read()] *)
Variable read_text : Path -> result string.
(** [base64.b64decode] *)
Variable b64decode : string -> result Bytes.
(** [Image.open(BytesIO(png_bytes))] *)
Variable Image_open : Bytes -> result Image.
(** The conversion to RGBA when the mode is another one, and
    [list(image.getdata())]: the decoder runs lazily, so this is where a
    damaged payload raises. *)
Variable rgba_data : Image -> result (list pixel).
(** [print] of a line of the loop.  The call may raise (a name or a sign that
    the encoding of the stream does not have, a closed stream); the line is
    then not written. *)
Variable print : console_line -> result unit.

Definition extract_png_from_svg (svg_path : Path) : result Bytes :=
  let* svg_content := read_text svg_path in
  match re_search_png svg_content with
  | None => Raise (ValueError ("No PNG data found in " ++ path_str svg_path))
  | Some png_base64 => b64decode png_base64
  end.

(** The calls of the [try] block between its two [print]s, up to the value
    that is assigned. *)
Definition process_asset (svg_path : Path) : result AssetPaletteResult :=
  let* png_bytes := extract_png_from_svg svg_path in
  let* image := Image_open png_bytes in
  let* pixels := rgba_data image in
  let* palette := extract_color_palette pixels 5 100 in
  Ok {| colors := palette; colorCount := Z.of_nat (length palette) |}.

Definition io_print (line : console_line) : io unit :=
  fun st =>
    match print line with
    | Ok _ =>
        ({| output := output st; console := console st ++ [line] |}, Ok tt)
    | Raise e => (st, Raise e)
    end.

(** One iteration.  Both [print]s of the [try] block are inside it, the
    assignment stands between them; the [print] of the [except] clause is
    outside the block, so an exception that it raises leaves the loop. *)
Definition main_step (svg_path : Path) : io unit :=
  let resco_name := stem svg_path in
  io_try
    (let! _ := io_print (Processing resco_name) in
     let! r := io_lift (process_asset svg_path) in
     let! _ := set_output resco_name r in
     io_print (Found (colorCount r)))
    (fun e => io_print (Error e)).

Definition main_loop (svg_files : list Path) : io unit :=
  io_for main_step svg_files.

(** The loop run from [output = {}] and an empty console. *)
Definition main_run (svg_files : list Path) : state * result unit :=
  main_loop svg_files {| output := []; console := [] |}.

(** No exception leaves the loop: the script goes on to write [output]. *)
Definition loop_returns (svg_files : list Path) : Prop :=
  is_Ok (main_run svg_files).2.

(** The items of [output] when the loop is left, in insertion order, which
    is the order in which [json.dump] writes them. *)
Definition main_items (svg_files : list Path)
    : list (string * AssetPaletteResult) :=
  output (main_run svg_files).1.

(** The same as a mapping: the report, which the script writes out when no
    exception has left the loop. *)
Definition report (svg_files : list Path) : gmap string AssetPaletteResult :=
  list_to_map (main_items svg_files).

(** The lines that the loop has written to the console when it is left. *)
Definition main_console (svg_files : list Path) : list console_line :=
  console (main_run svg_files).1.

(** [list(output.keys())[0]], the asset of the closing example, when
    [output] is not empty. *)
Definition first_resco (svg_files : list Path) : option string :=
  head (main_items svg_files).*1.

(** What the iteration of an asset assigns to [output[resco_name]], if it
    gets there: the first [print] and the calls after it have to return. *)
Definition assigned (svg_path : Path) : result AssetPaletteResult :=
  let* _ := print (Processing (stem svg_path)) in
  process_asset svg_path.

(** The assets whose iteration reached the assignment. *)
Definition processed (svg_files : list Path) : list Path :=
  filter (fun svg_path => is_Ok (assigned svg_path)) svg_files.

End Main.

Arguments extract_png_from_svg {Path Bytes}.
Arguments process_asset {Path Bytes Image}.
Arguments main_step {Path Bytes Image}.
Arguments main_loop {Path Bytes Image}.
Arguments main_run {Path Bytes Image}.
Arguments loop_returns {Path Bytes Image}.
Arguments main_items {Path Bytes Image}.
Arguments report {Path Bytes Image}.
Arguments main_console {Path Bytes Image}.
Arguments first_resco {Path Bytes Image}.
Arguments assigned {Path Bytes Image}.
Arguments processed {Path Bytes Image}.

(** A directory of three assets: the container of the first lacks the
    embedded payload; that of the second embeds one, which decodes to a single
    opaque pixel; so does that of the third, whose name the console cannot
    show. *)
Definition sample_files : list string :=
  ["broken"; "icon"; "unprintable"]%string.

Definition sample_svg : string :=
  ("<svg><image " ++ href_prefix ++ "iVBORw0KGgo="
   ++ String double_quote "/></svg>")%string.

Definition sample_read_text (svg_path : string) : result string :=
  if decide (svg_path = "broken"%string)
  then Ok "<svg><image width='1'/></svg>"%string
  else Ok sample_svg.

Definition sample_b64decode (png_base64 : string) : result string :=
  Ok png_base64.

Definition sample_open (png_bytes : string) : result (list pixel) :=
  Ok [(200, 10, 5, 255)].

Definition sample_data (image : list pixel) : result (list pixel) := Ok image.

Definition sample_print (line : console_line) : result unit :=
  match line with
  | Processing name =>
      if decide (name = "unprintable"%string)
      then Raise (OtherError "UnicodeEncodeError")
      else Ok tt
  | _ => Ok tt
  end.

(** A console whose encoding lacks the two signs of the outcome lines. *)
Definition print_ascii (line : console_line) : result unit :=
  match line with
  | Processing _ => Ok tt
  | _ => Raise (OtherError "UnicodeEncodeError")
  end.

(** A console that shows every line. *)
Definition print_all (line : console_line) : result unit := Ok tt.






(** ** Vocabulary of the properties *)

Section Occurrences.
Context {K : Type} `{EqDecision K}.

(** How often [k] occurs in [l]. *)
Fixpoint occurrences (k : K) (l : list K) : Z :=
  match l with
  | [] => 0
  | x :: t => (if decide (x = k) then 1 else 0) + occurrences k t
  end.

(** The distinct elements of [l], each at its first occurrence. *)
Fixpoint distinct (l : list K) : list K :=
  match l with
  | [] => []
  | x :: t => x :: filter (fun y => y <> x) (distinct t)
  end.

End Occurrences.

(** The values returned by the monadic steps, none of which raises. *)

Definition quantized_channel (v : Z) : Z :=
  Float.round (Float.fl (inject_Z v / 15)) * 15.

Definition quantized_rgb (p : pixel) : rgb :=
  let '(r, g, b, a) := p in
  (quantized_channel r, quantized_channel g, quantized_channel b).

Definition percent_of (count total : Z) : Q :=
  Float.round2 (Float.mul (Float.fl (inject_Z count / inject_Z total)) 100).

Definition entry_of (total : Z) (item : rgb * Z) : PaletteEntry :=
  {| color := hex_color item.1; pixelCount := item.2;
     percentage := percent_of item.2 total |}.

(** The quantized keys of the opaque pixels, in pixel order. *)
Definition quantized_opaque (pixels : list pixel) : list rgb :=
  quantized_rgb <$> filter is_opaque pixels.

(** The (color, count) pairs that meet the threshold, ranked. *)
Definition ranked (pixels : list pixel) (min_pixels : Z) : list (rgb * Z) :=
  sort_desc
    (filter (fun item : rgb * Z => min_pixels <= item.2)
            (Counter (quantized_opaque pixels))).

(** [len(opaque_pixels)] *)
Definition opaque_count (pixels : list pixel) : Z :=
  Z.of_nat (length (filter is_opaque pixels)).

(** The number of opaque pixels whose quantized color is [q]. *)
Definition color_count (q : rgb) (pixels : list pixel) : Z :=
  occurrences q (quantized_opaque pixels).

(** The distinct quantized colors whose count meets the threshold. *)
Definition qualifying (pixels : list pixel) (min_pixels : Z) : gset rgb :=
  filter (fun q => min_pixels <= color_count q pixels)
         (list_to_set (quantized_opaque pixels) : gset rgb).

(** Position in the pixel sequence of the first opaque pixel whose quantized
    color is [q]. *)
Fixpoint first_seen (q : rgb) (pixels : list pixel) : option nat :=
  match pixels with
  | [] => None
  | p :: t =>
      if decide (is_opaque p /\ quantized_rgb p = q) then Some 0%nat
      else S <$> first_seen q t
  end.

(** The 256 values of a channel. *)
Definition byte_values : list Z := map Z.of_nat (seq 0 256).

(** A small grid of integers, for the checks against the Standard Library's
    specification of IEEE 754 arithmetic. *)
Definition grid : list Z := map Z.of_nat (seq 1 40).

(** The rational value of a finite binary64 number of that specification. *)
Definition SF2Q (f : spec_float) : Q :=
  match f with
  | S754_finite s m e =>
      Qred ((if s then -1 else 1) * inject_Z (Zpos m) * 2 ^ e)%Q
  | _ => 0%Q
  end.

(** An [int] as a binary64 number. *)
Definition SF_of_int (a : Z) : spec_float :=
  binary_normalize 53 1024 a 0 false.

Definition same_value (x y : Q) : bool :=
  match (x ?= y)%Q with
  | Eq => true
  | _ => false
  end.

(** Sums over a list. *)
Definition Zsum {A} (f : A -> Z) (l : list A) : Z :=
  foldr (fun x acc => f x + acc) 0 l.

Definition Qsum {A} (f : A -> Q) (l : list A) : Q :=
  foldr (fun x acc => (f x + acc)%Q) 0%Q l.

(** The exact sum of the reported percentages, and the sum of the counts. *)
Definition sum_percentages (palette : list PaletteEntry) : Q :=
  Qsum percentage palette.

Definition sum_counts (palette : list PaletteEntry) : Z :=
  Zsum pixelCount palette.

(** Seven opaque pixels of seven different quantized colors. *)
Definition seven_colors : list pixel :=
  [(0, 0, 0, 255); (15, 0, 0, 255); (30, 0, 0, 255); (45, 0, 0, 255);
   (60, 0, 0, 255); (75, 0, 0, 255); (90, 0, 0, 255)].

(** 600 opaque pixels: 100 black, 100 red, 400 white. *)
Definition three_colors : list pixel :=
  replicate 100 (0, 0, 0, 255) ++ replicate 100 (255, 0, 0, 255) ++
  replicate 400 (255, 255, 255, 255).

(** Descending order of the counts. *)
Definition count_desc {K : Type} (x y : K * Z) : Prop := y.2 <= x.2.

(** The nearest multiple of 15, by integer arithmetic. *)
Definition nearest_multiple_15 (v : Z) : Z := 15 * ((v + 7) / 15).

(** [q] is a multiple of 15 strictly nearer to [v] than any other. *)
Definition nearest_15 (v q : Z) : Prop :=
  (15 | q) /\
  forall m, (15 | m) -> m <> q -> Z.abs (q - v) < Z.abs (m - v).

Definition rgb_wf (c : rgb) : Prop :=
  let '(r, g, b) := c in channel r /\ channel g /\ channel b.

(** ** Vocabulary of the further properties *)

(** A pixel moved to the centre of its bucket, alpha kept. *)
Definition requantized (p : pixel) : pixel := (quantized_rgb p, alpha p).

(** Reading a color string back: [#RRGGBB], upper-case digits. *)
Definition hex_value (c : ascii) : option Z :=
  let n := Z.of_N (N_of_ascii c) in
  if (48 <=? n) && (n <=? 57) then Some (n - 48)
  else if (65 <=? n) && (n <=? 70) then Some (n - 55)
  else None.

Definition parse_byte (hi lo : ascii) : option Z :=
  match hex_value hi, hex_value lo with
  | Some h, Some l => Some (16 * h + l)
  | _, _ => None
  end.

Definition parse_hex_color (s : string) : option rgb :=
  match s with
  | String "#" (String r1 (String r0 (String g1 (String g0
      (String b1 (String b0 EmptyString)))))) =>
      match parse_byte r1 r0, parse_byte g1 g0, parse_byte b1 b0 with
      | Some r, Some g, Some b => Some (r, g, b)
      | _, _, _ => None
      end
  | _ => None
  end.

(** Every channel a multiple of the bucket size. *)
Definition on_grid (c : rgb) : Prop :=
  let '(r, g, b) := c in (15 | r) /\ (15 | g) /\ (15 | b).

(** No double quote in [s]. *)
Fixpoint unquoted (s : string) : Prop :=
  match s with
  | EmptyString => True
  | String c s' => c <> double_quote /\ unquoted s'
  end.

(** [g] is an embedded payload of [svg_content]: the prefix, then [g] (not
    empty, no double quote), then a double quote. *)
Definition has_payload (svg_content g : string) : Prop :=
  exists pre post,
    svg_content = pre +:+ href_prefix +:+ g +:+ String double_quote post /\
    g <> EmptyString /\ unquoted g.

(** The kinds of console lines. *)
Definition is_error_line (c : console_line) : Prop :=
  match c with
  | Error _ => True
  | _ => False
  end.

Global Instance is_error_line_dec (c : console_line) :
  Decision (is_error_line c).
Proof. destruct c; simpl; apply _. Defined.

Definition is_found_line (c : console_line) : Prop :=
  match c with
  | Found _ => True
  | _ => False
  end.

Global Instance is_found_line_dec (c : console_line) :
  Decision (is_found_line c).
Proof. destruct c; simpl; apply _. Defined.

Definition is_processing_line (c : console_line) : Prop :=
  match c with
  | Processing _ => True
  | _ => False
  end.

Global Instance is_processing_line_dec (c : console_line) :
  Decision (is_processing_line c).
Proof. destruct c; simpl; apply _. Defined.

(** The number of lines of a kind. *)
Definition count_lines (P : console_line -> Prop)
    `{!forall c, Decision (P c)} (l : list console_line) : nat :=
  length (filter P l).

(** The three channels of a pixel brought to their nearest multiples of 15,
    by integer arithmetic and without the alpha. *)
Definition bucket (p : pixel) : rgb :=
  let '(r, g, b, a) := p in
  (nearest_multiple_15 r, nearest_multiple_15 g, nearest_multiple_15 b).

(** The number of opaque pixels of an image that are in a bucket. *)
Definition bucket_size (c : rgb) (pixels : list pixel) : Z :=
  Z.of_nat (length (filter (fun p => is_opaque p /\ bucket p = c) pixels)).

(** An image payload of 600 opaque pixels. *)
Definition sample_open_600 (png_bytes : string) : result (list pixel) :=
  Ok three_colors.

(** * Properties *)

(** ** The arithmetic against the Standard Library's IEEE 754 operations

    [SFdiv] and [SFmul] are the Standard Library's executable specification of
    binary64 division and multiplication.  On the quotients of the grid, on
    every channel value divided by 15, and on the products by 100, they
    return the values of [Float.truediv] and [Float.mul]. *)

Example truediv_agrees_with_SFdiv :
  forallb (fun a => forallb (fun b =>
    same_value (SF2Q (SFdiv 53 1024 (SF_of_int a) (SF_of_int b)))
               (Float.fl (inject_Z a / inject_Z b))) grid) grid = true.
Proof. vm_compute. reflexivity. Qed.

Example channel_division_agrees_with_SFdiv :
  forallb (fun v =>
    same_value (SF2Q (SFdiv 53 1024 (SF_of_int v) (SF_of_int 15)))
               (Float.fl (inject_Z v / 15))) byte_values = true.
Proof. vm_compute. reflexivity. Qed.

Example mul_agrees_with_SFmul :
  forallb (fun a => forallb (fun b =>
    same_value
      (SF2Q (SFmul 53 1024 (SFdiv 53 1024 (SF_of_int a) (SF_of_int b))
                   (SF_of_int 100)))
      (Float.mul (Float.fl (inject_Z a / inject_Z b)) 100)) grid) grid = true.
Proof. vm_compute. reflexivity. Qed.

(** [round(0.125, 2)] is 0.12 and [round(0.375, 2)] is 0.38: exact halves go
    to the even digit; [round(2.5)] is 2 and [round(3.5)] is 4. *)
Example round2_halves :
  Float.round2 (1 # 8) = Float.fl (12 # 100) /\
  Float.round2 (3 # 8) = Float.fl (38 # 100) /\
  Float.round (5 # 2) = 2 /\ Float.round (7 # 2) = 4.
Proof. vm_compute. auto. Qed.

(** ** The containers on small inputs *)

Example Counter_first_occurrence_order :
  Counter [3; 1; 3; 2; 1; 3] = [(3, 3); (1, 2); (2, 1)].
Proof. reflexivity. Qed.

Example sort_desc_keeps_ties_in_order :
  sort_desc [("a", 1); ("b", 3); ("c", 1); ("d", 3); ("e", 2)]%string =
  [("b", 3); ("d", 3); ("e", 2); ("a", 1); ("c", 1)]%string.
Proof. reflexivity. Qed.

Example slice_to_examples :
  slice_to [1; 2; 3] 2 = [1; 2] /\ slice_to [1; 2; 3] 5 = [1; 2; 3] /\
  slice_to [1; 2; 3] 0 = [] /\ slice_to [1; 2; 3] (-1) = [1; 2] /\
  slice_to [1; 2; 3] (-7) = [].
Proof. repeat split. Qed.

Example format_02X_examples :
  format_02X 0 = "00"%string /\ format_02X 15 = "0F"%string /\
  format_02X 195 = "C3"%string /\ format_02X 255 = "FF"%string.
Proof. repeat split. Qed.

(** The search finds the embedded payload, skips an empty one and reports a
    container without one. *)
Example re_search_png_examples :
  re_search_png ("<image " ++ href_prefix ++ "iVBORw0KGgo="
                   ++ String double_quote "/>") = Some "iVBORw0KGgo="%string /\
  re_search_png (href_prefix ++ String double_quote " " ++ href_prefix
                   ++ "AAAA" ++ String double_quote "") = Some "AAAA"%string /\
  re_search_png (href_prefix ++ "AAAA") = None /\
  re_search_png "<svg><image width='1'/></svg>" = None.
Proof. vm_compute. auto. Qed.

Example extract_png_from_svg_examples :
  extract_png_from_svg id sample_read_text sample_b64decode "broken"%string =
    Raise (ValueError "No PNG data found in broken") /\
  extract_png_from_svg id sample_read_text sample_b64decode "icon"%string =
    Ok "iVBORw0KGgo="%string.
Proof. vm_compute. auto. Qed.

(** Well-formedness of an image written out pixel by pixel. *)
Ltac literal_image_wf :=
  unfold image_wf; repeat constructor; unfold channel; lia.

(** ** Monadic steps that cannot raise *)

Lemma for_each_Ok {A B} (f : A -> result B) (g : A -> B) (l : list A) :
  (forall x, x ∈ l -> f x = Ok (g x)) ->
  for_each f l = Ok (g <$> l).
Proof.
  induction l as [|x t IH]; intros Hf; simpl.
  - reflexivity.
  - rewrite (Hf x) by left. simpl.
    rewrite IH by (intros y Hy; apply Hf; right; exact Hy).
    reflexivity.
Qed.

Lemma truediv_Ok (a b : Z) :
  b <> 0 -> Float.truediv a b = Ok (Float.fl (inject_Z a / inject_Z b)).
Proof.
  intros Hb. unfold Float.truediv.
  destruct (Z.eqb_spec b 0) as [E|_]; [contradiction|reflexivity].
Qed.

Lemma quantize_channel_Ok (v : Z) :
  quantize_channel v = Ok (quantized_channel v).
Proof.
  unfold quantize_channel. rewrite truediv_Ok by discriminate. reflexivity.
Qed.

Lemma quantize_Ok (p : pixel) : quantize p = Ok (quantized_rgb p).
Proof.
  destruct p as [[[r g] b] a]. unfold quantize.
  rewrite !quantize_channel_Ok. reflexivity.
Qed.

Lemma format_entry_Ok (total : Z) (item : rgb * Z) :
  total <> 0 -> format_entry total item = Ok (entry_of total item).
Proof.
  intros Ht. destruct item as [c count]. unfold format_entry.
  rewrite truediv_Ok by exact Ht. reflexivity.
Qed.

Lemma opaque_count_pos (pixels : list pixel) :
  filter is_opaque pixels <> [] -> 0 < opaque_count pixels.
Proof.
  unfold opaque_count. destruct (filter is_opaque pixels); simpl.
  - congruence.
  - lia.
Qed.

(** The extractor, with its monadic steps resolved. *)
Lemma extract_color_palette_eq (pixels : list pixel) (max_colors min_pixels : Z) :
  extract_color_palette pixels max_colors min_pixels =
  Ok (match filter is_opaque pixels with
      | [] => []
      | _ :: _ =>
          entry_of (opaque_count pixels) <$>
            slice_to (ranked pixels min_pixels) max_colors
      end).
Proof.
  unfold extract_color_palette, ranked, quantized_opaque, opaque_count.
  destruct (filter is_opaque pixels) as [|p ps] eqn:E; [reflexivity|].
  rewrite (for_each_Ok quantize quantized_rgb)
    by (intros; apply quantize_Ok).
  cbn [bind].
  apply for_each_Ok. intros item _. apply format_entry_Ok.
  simpl length. lia.
Qed.

Lemma slice_to_nonneg {A} (l : list A) (n : Z) :
  0 <= n -> slice_to l n = firstn (Z.to_nat n) l.
Proof.
  intros Hn. unfold slice_to.
  destruct (Z.ltb_spec n 0); [lia|reflexivity].
Qed.

(** ** C1 *)

(** C1: the 1x1 image whose pixel is the fully opaque (200, 10, 5), with
    [min_pixels = 1] and any [max_colors >= 1], yields exactly one entry:
    color "#C30F00", pixelCount 1, percentage 100.0. *)
Theorem single_pixel_palette (max_colors : Z) :
  1 <= max_colors ->
  extract_color_palette [(200, 10, 5, 255)] max_colors 1 =
  Ok [ {| color := "#C30F00"; pixelCount := 1; percentage := 100 |} ].
Proof.
  intros Hm. rewrite extract_color_palette_eq.
  rewrite slice_to_nonneg by lia.
  assert (Hr : ranked [(200, 10, 5, 255)] 1 = [((195, 15, 0), 1)])
    by (vm_compute; reflexivity).
  rewrite Hr.
  destruct (Z.to_nat max_colors) as [|n] eqn:En; [lia|].
  cbn [firstn]. rewrite firstn_nil.
  vm_compute. reflexivity.
Qed.

Lemma single_pixel_palette_witness :
  1 <= 5 /\
  extract_color_palette [(200, 10, 5, 255)] 5 1 =
  Ok [ {| color := "#C30F00"; pixelCount := 1; percentage := 100 |} ].
Proof. split; [lia | apply (single_pixel_palette 5); lia]. Defined.

(** ** Quantization *)

Lemma channel_in_byte_values (v : Z) : channel v -> In v byte_values.
Proof.
  intros [H0 H255]. unfold byte_values.
  apply in_map_iff. exists (Z.to_nat v). split; [lia|].
  apply in_seq. lia.
Qed.

(** A property checked on each of the 256 channel values holds of every
    channel value. *)
Lemma for_all_channels (f : Z -> bool) :
  forallb f byte_values = true -> forall v, channel v -> f v = true.
Proof.
  intros Hall v Hv. rewrite forallb_forall in Hall.
  apply Hall, channel_in_byte_values, Hv.
Qed.

Lemma quantized_channel_nearest (v : Z) :
  channel v -> quantized_channel v = nearest_multiple_15 v.
Proof.
  intros Hv. apply Z.eqb_eq. revert v Hv.
  apply (for_all_channels
           (fun v => quantized_channel v =? nearest_multiple_15 v)).
  vm_compute. reflexivity.
Qed.

Lemma nearest_multiple_15_spec (v : Z) : nearest_15 v (nearest_multiple_15 v).
Proof.
  unfold nearest_15, nearest_multiple_15.
  pose proof (Z.div_mod (v + 7) 15 ltac:(lia)) as Hdm.
  pose proof (Z.mod_pos_bound (v + 7) 15 ltac:(lia)) as Hb.
  split.
  - exists ((v + 7) / 15). lia.
  - intros m [j ->] Hne. lia.
Qed.

Lemma nearest_multiple_15_channel (v : Z) :
  channel v -> channel (nearest_multiple_15 v).
Proof.
  unfold channel, nearest_multiple_15. intros [H0 H255].
  pose proof (Z.div_mod (v + 7) 15 ltac:(lia)) as Hdm.
  pose proof (Z.mod_pos_bound (v + 7) 15 ltac:(lia)) as Hb.
  assert ((v + 7) / 15 < 18) by (apply Z.div_lt_upper_bound; lia).
  lia.
Qed.

(** ** No opaque pixel *)

Lemma filter_opaque_nil (pixels : list pixel) :
  Forall (fun p => alpha p <= 127) pixels -> filter is_opaque pixels = [].
Proof.
  induction 1 as [|p t Hp _ IH]; [reflexivity|].
  rewrite filter_cons_False; [exact IH|].
  unfold is_opaque. lia.
Qed.

(** C5: when every pixel has alpha <= 127 the result is the empty sequence,
    returned normally (no exception, so no division by zero), whatever
    [max_colors] and [min_pixels] are. *)
Theorem no_opaque_pixel_empty (pixels : list pixel) (max_colors min_pixels : Z) :
  Forall (fun p => alpha p <= 127) pixels ->
  extract_color_palette pixels max_colors min_pixels = Ok [].
Proof.
  intros H. unfold extract_color_palette.
  rewrite (filter_opaque_nil pixels H). reflexivity.
Qed.

Lemma no_opaque_pixel_empty_witness :
  Forall (fun p => alpha p <= 127) [(10, 20, 30, 127); (255, 255, 255, 0)] /\
  extract_color_palette [(10, 20, 30, 127); (255, 255, 255, 0)] (-3) 0 = Ok [].
Proof.
  assert (H : Forall (fun p => alpha p <= 127)
                     [(10, 20, 30, 127); (255, 255, 255, 0)])
    by (repeat constructor; unfold alpha; simpl; lia).
  split; [exact H|]. apply (no_opaque_pixel_empty _ (-3) 0 H).
Defined.

(** ** The counting map *)

Section CounterFacts.
Context {K : Type} `{EqDecision K}.
Implicit Types (l : list K) (k x : K).

Lemma occurrences_app l1 l2 k :
  occurrences k (l1 ++ l2) = occurrences k l1 + occurrences k l2.
Proof. induction l1 as [|y t IH]; simpl; [reflexivity|]. rewrite IH. lia. Qed.

Lemma occurrences_nonneg k l : 0 <= occurrences k l.
Proof. induction l as [|y t IH]; simpl; [lia|]. case_decide; lia. Qed.

Lemma occurrences_not_elem k l : k ∉ l -> occurrences k l = 0.
Proof.
  induction l as [|y t IH]; simpl; intros Hk; [reflexivity|].
  rewrite not_elem_of_cons in Hk. destruct Hk as [Hne Hk].
  rewrite decide_False by congruence. rewrite IH by exact Hk. lia.
Qed.

Lemma occurrences_elem k l : k ∈ l -> 1 <= occurrences k l.
Proof.
  induction 1 as [y t|y z t _ IH]; simpl.
  - rewrite decide_True by reflexivity.
    pose proof (occurrences_nonneg y t). lia.
  - case_decide; lia.
Qed.

Lemma elem_of_distinct k l : k ∈ distinct l <-> k ∈ l.
Proof.
  induction l as [|y t IH]; simpl; [reflexivity|].
  rewrite !elem_of_cons, list_elem_of_filter, IH.
  destruct (decide (k = y)); naive_solver.
Qed.

Lemma NoDup_distinct l : NoDup (distinct l).
Proof.
  induction l as [|y t IH]; simpl; constructor.
  - rewrite list_elem_of_filter. naive_solver.
  - apply NoDup_filter, IH.
Qed.

Lemma distinct_snoc l x :
  distinct (l ++ [x]) =
  if decide (x ∈ l) then distinct l else distinct l ++ [x].
Proof.
  induction l as [|y t IH]; [reflexivity|].
  cbn [app distinct].
  rewrite IH. destruct (decide (x ∈ t)) as [Hin|Hnin].
  -
    rewrite decide_True by (right; exact Hin). reflexivity.
  - rewrite filter_app, filter_cons, filter_nil.
    destruct (decide (x = y)) as [->|Hne].
    + rewrite (decide_False (P := y <> y)) by tauto.
      rewrite (decide_True (P := y ∈ y :: t)) by left.
      rewrite app_nil_r. reflexivity.
    + rewrite (decide_True (P := x <> y)) by exact Hne.
      rewrite (decide_False (P := x ∈ y :: t))
        by (rewrite elem_of_cons; tauto).
      reflexivity.
Qed.

Lemma Counter_snoc l x : Counter (l ++ [x]) = increment x (Counter l).
Proof. unfold Counter. rewrite fold_left_app. reflexivity. Qed.

(** Incrementing a key of a table that lists each key once. *)
Lemma increment_table (f : K -> Z) (L : list K) x :
  NoDup L ->
  increment x ((fun k => (k, f k)) <$> L) =
  if decide (x ∈ L)
  then (fun k => (k, f k + if decide (x = k) then 1 else 0)) <$> L
  else ((fun k => (k, f k)) <$> L) ++ [(x, 1)].
Proof.
  induction 1 as [|y t Hy Hnd IH]; [reflexivity|].
  rewrite !fmap_cons. cbn [increment].
  destruct (decide (x = y)) as [->|Hne].
  - rewrite (decide_True (P := y ∈ y :: t)) by left.
    f_equal. apply list_fmap_ext. intros i k Hk.
    rewrite decide_False; [f_equal; lia|].
    intros ->. apply Hy. eapply list_elem_of_lookup_2, Hk.
  - rewrite IH. destruct (decide (x ∈ t)) as [Hin|Hnin].
    + rewrite (decide_True (P := x ∈ y :: t)) by (right; exact Hin).
      do 2 f_equal. lia.
    + rewrite (decide_False (P := x ∈ y :: t))
        by (rewrite elem_of_cons; tauto).
      reflexivity.
Qed.

(** The counter lists each distinct element once, at the position of its
    first occurrence, with its number of occurrences. *)
Lemma Counter_spec l :
  Counter l = (fun k => (k, occurrences k l)) <$> distinct l.
Proof.
  induction l as [|x l IH] using rev_ind; [reflexivity|].
  rewrite Counter_snoc, IH, (increment_table _ _ _ (NoDup_distinct l)).
  rewrite distinct_snoc.
  destruct (decide (x ∈ l)) as [Hin|Hnin].
  - rewrite decide_True by (apply elem_of_distinct, Hin).
    apply list_fmap_ext. intros i k _. rewrite occurrences_app. simpl.
    f_equal. repeat case_decide; congruence || lia.
  - rewrite decide_False by (rewrite elem_of_distinct; exact Hnin).
    rewrite fmap_app. f_equal.
    + apply list_fmap_ext. intros i k Hk. rewrite occurrences_app. simpl.
      rewrite decide_False; [f_equal; lia|].
      intros ->. apply Hnin, elem_of_distinct.
      eapply list_elem_of_lookup_2, Hk.
    + simpl. rewrite occurrences_app, (occurrences_not_elem x l Hnin). simpl.
      rewrite decide_True by reflexivity. reflexivity.
Qed.

End CounterFacts.

(** ** The stable descending sort *)

Section SortFacts.
Context {K : Type}.
Implicit Types (x y : K * Z) (l : list (K * Z)).

Lemma insert_desc_perm x l : insert_desc x l ≡ₚ x :: l.
Proof.
  induction l as [|y t IH]; simpl; [reflexivity|].
  case_decide; [reflexivity|].
  rewrite IH. apply Permutation_swap.
Qed.

Lemma sort_desc_perm l : sort_desc l ≡ₚ l.
Proof.
  induction l as [|x t IH]; simpl; [reflexivity|].
  rewrite insert_desc_perm, IH. reflexivity.
Qed.

Lemma insert_desc_sorted x l :
  StronglySorted count_desc l -> StronglySorted count_desc (insert_desc x l).
Proof.
  induction 1 as [|y t Hs IH Hy]; simpl.
  - repeat constructor.
  - case_decide as Hxy.
    + constructor; [constructor; assumption|].
      constructor; [exact Hxy|].
      eapply Forall_impl; [exact Hy|].
      unfold count_desc. intros z Hz. lia.
    + constructor; [exact IH|].
      rewrite insert_desc_perm. constructor; [|exact Hy].
      unfold count_desc. lia.
Qed.

Lemma sort_desc_sorted l : StronglySorted count_desc (sort_desc l).
Proof.
  induction l as [|x t IH]; simpl; [constructor|].
  apply insert_desc_sorted, IH.
Qed.

(** An inserted item passes only items of a strictly larger count. *)
Lemma insert_desc_stable (c : Z) x l :
  filter (fun y => y.2 = c) (insert_desc x l) =
  filter (fun y => y.2 = c) (x :: l).
Proof.
  induction l as [|y t IH]; simpl; [reflexivity|].
  case_decide as Hxy; [reflexivity|].
  rewrite (filter_cons _ y), IH, !(filter_cons _ x), !(filter_cons _ y).
  repeat case_decide; try reflexivity. lia.
Qed.

(** Stability: the items of one count keep their order. *)
Lemma sort_desc_stable (c : Z) l :
  filter (fun y => y.2 = c) (sort_desc l) = filter (fun y => y.2 = c) l.
Proof.
  induction l as [|x t IH]; simpl; [reflexivity|].
  rewrite insert_desc_stable, !filter_cons, IH. reflexivity.
Qed.

Lemma StronglySorted_lookup_lt (R : relation (K * Z)) l (i j : nat) x y :
  StronglySorted R l -> (i < j)%nat ->
  l !! i = Some x -> l !! j = Some y -> R x y.
Proof.
  intros Hs. revert i j. induction Hs as [|z t Hs IH Hz]; intros i j Hij Hi Hj.
  - rewrite lookup_nil in Hi. discriminate.
  - destruct j as [|j]; [lia|]. destruct i as [|i]; simpl in *.
    + injection Hi as <-. rewrite Forall_forall in Hz.
      apply Hz. eapply list_elem_of_lookup_2, Hj.
    + apply (IH i j); [lia|assumption..].
Qed.

End SortFacts.

Lemma slice_to_take {A} (l : list A) (n : Z) :
  slice_to l n =
  take (Z.to_nat (if n <? 0 then Z.of_nat (length l) + n else n)) l.
Proof. unfold slice_to. destruct (n <? 0); reflexivity. Qed.

(** The returned palette: the ranked pairs, truncated and formatted. *)
Lemma extract_color_palette_ranked (pixels : list pixel) (max_colors min_pixels : Z) :
  extract_color_palette pixels max_colors min_pixels =
  Ok (entry_of (opaque_count pixels) <$>
        slice_to (ranked pixels min_pixels) max_colors).
Proof.
  rewrite extract_color_palette_eq. f_equal.
  unfold ranked, quantized_opaque.
  destruct (filter is_opaque pixels) as [|p ps]; [|reflexivity].
  rewrite slice_to_take. change (Counter (quantized_rgb <$> [])) with (@nil (rgb * Z)).
  rewrite filter_nil. cbn [sort_desc]. rewrite take_nil. reflexivity.
Qed.

Lemma ranked_sorted (pixels : list pixel) (min_pixels : Z) :
  StronglySorted count_desc (ranked pixels min_pixels).
Proof. apply sort_desc_sorted. Qed.

(** ** C4 *)

(** C4: the returned sequence is in descending order of pixelCount: of two
    adjacent entries the earlier one has the larger or equal pixelCount. *)
Theorem palette_sorted_by_count (pixels : list pixel) (max_colors min_pixels : Z) :
  exists palette,
    extract_color_palette pixels max_colors min_pixels = Ok palette /\
    forall (i : nat) e1 e2,
      palette !! i = Some e1 -> palette !! S i = Some e2 ->
      pixelCount e1 >= pixelCount e2.
Proof.
  eexists. split; [apply extract_color_palette_ranked|].
  intros i e1 e2 H1 H2.
  rewrite slice_to_take in H1, H2.
  apply list_lookup_fmap_Some in H1 as (x1 & -> & H1).
  apply list_lookup_fmap_Some in H2 as (x2 & -> & H2).
  apply lookup_take_Some in H1 as [H1 _].
  apply lookup_take_Some in H2 as [H2 _].
  pose proof (StronglySorted_lookup_lt _ _ i (S i) x1 x2
                (ranked_sorted pixels min_pixels) ltac:(lia) H1 H2) as Hd.
  unfold count_desc in Hd. simpl. lia.
Qed.

(** ** The ranked pairs *)

Lemma filter_fmap {A B} (P : B -> Prop) `{!forall y, Decision (P y)}
    (g : A -> B) (l : list A) :
  filter P (g <$> l) = g <$> filter (fun x => P (g x)) l.
Proof.
  induction l as [|x t IH]; [reflexivity|].
  rewrite fmap_cons, !filter_cons, IH.
  case_decide; reflexivity.
Qed.

(** The pairs that meet the threshold, before the sort: the distinct colors in
    order of first occurrence, each with its count. *)
Lemma filtered_spec (pixels : list pixel) (min_pixels : Z) :
  filter (fun item : rgb * Z => min_pixels <= item.2)
         (Counter (quantized_opaque pixels)) =
  (fun q => (q, color_count q pixels)) <$>
    filter (fun q => min_pixels <= color_count q pixels)
           (distinct (quantized_opaque pixels)).
Proof. rewrite Counter_spec, filter_fmap. reflexivity. Qed.

Lemma elem_of_ranked (pixels : list pixel) (min_pixels : Z) (q : rgb) (c : Z) :
  (q, c) ∈ ranked pixels min_pixels <->
  q ∈ quantized_opaque pixels /\ c = color_count q pixels /\ min_pixels <= c.
Proof.
  unfold ranked. rewrite sort_desc_perm, filtered_spec, list_elem_of_fmap.
  split.
  - intros (q' & [= -> ->] & Hq).
    apply list_elem_of_filter in Hq as [Hc Hq].
    rewrite elem_of_distinct in Hq. auto.
  - intros (Hq & -> & Hc). exists q. split; [reflexivity|].
    apply list_elem_of_filter. split; [exact Hc|].
    rewrite elem_of_distinct. exact Hq.
Qed.

Lemma qualifying_list (pixels : list pixel) (min_pixels : Z) :
  qualifying pixels min_pixels =
  list_to_set (filter (fun q => min_pixels <= color_count q pixels)
                      (distinct (quantized_opaque pixels))).
Proof.
  unfold qualifying. apply set_eq. intros q.
  rewrite elem_of_filter, !elem_of_list_to_set, list_elem_of_filter,
    elem_of_distinct.
  reflexivity.
Qed.

Lemma length_ranked (pixels : list pixel) (min_pixels : Z) :
  length (ranked pixels min_pixels) = size (qualifying pixels min_pixels).
Proof.
  unfold ranked. rewrite sort_desc_perm, filtered_spec, length_fmap.
  rewrite qualifying_list, size_list_to_set; [reflexivity|].
  apply NoDup_filter, NoDup_distinct.
Qed.

(** ** C7 *)

(** C7: for [max_colors >= 0] the length of the result is at most
    [min(max_colors, n)], [n] the number of distinct quantized colors whose
    count is at least [min_pixels]; with [max_colors = 0] the result is
    empty. *)
Theorem palette_length_bound (pixels : list pixel) (max_colors min_pixels : Z) :
  0 <= max_colors ->
  exists palette,
    extract_color_palette pixels max_colors min_pixels = Ok palette /\
    Z.of_nat (length palette) <=
      Z.min max_colors (Z.of_nat (size (qualifying pixels min_pixels))) /\
    (max_colors = 0 -> palette = []).
Proof.
  intros Hmax. eexists. split; [apply extract_color_palette_ranked|].
  rewrite slice_to_nonneg by exact Hmax. split.
  - rewrite length_fmap, length_take, length_ranked. lia.
  - intros ->. reflexivity.
Qed.

Lemma palette_length_bound_witness :
  0 <= 1 /\
  exists palette,
    extract_color_palette
      [(0, 0, 0, 255); (0, 0, 0, 255); (255, 0, 0, 255)] 1 1 = Ok palette /\
    Z.of_nat (length palette) <=
      Z.min 1 (Z.of_nat (size (qualifying
        [(0, 0, 0, 255); (0, 0, 0, 255); (255, 0, 0, 255)] 1))) /\
    (1 = 0 -> palette = []).
Proof.
  split; [lia|].
  apply (palette_length_bound
           [(0, 0, 0, 255); (0, 0, 0, 255); (255, 0, 0, 255)] 1 1).
  lia.
Defined.

(** ** Hex colors of 8-bit channels *)

Lemma format_02X_digits (v : Z) :
  channel v ->
  format_02X v =
  String (hex_digit (v / 16)) (String (hex_digit (v mod 16)) EmptyString).
Proof.
  intros Hv. apply String.eqb_eq. revert v Hv.
  apply (for_all_channels
           (fun v => String.eqb (format_02X v)
                       (String (hex_digit (v / 16))
                          (String (hex_digit (v mod 16)) EmptyString)))).
  vm_compute. reflexivity.
Qed.

Lemma hex_digit_inj (d1 d2 : Z) :
  0 <= d1 < 16 -> 0 <= d2 < 16 -> hex_digit d1 = hex_digit d2 -> d1 = d2.
Proof.
  intros H1 H2 Heq.
  assert (Hcode : forall d, 0 <= d < 16 ->
            Z.of_N (N_of_ascii (hex_digit d)) = if d <? 10 then 48 + d else 55 + d).
  { intros d Hd.
    assert (Hcases : d = 0 \/ d = 1 \/ d = 2 \/ d = 3 \/ d = 4 \/ d = 5 \/
                     d = 6 \/ d = 7 \/ d = 8 \/ d = 9 \/ d = 10 \/ d = 11 \/
                     d = 12 \/ d = 13 \/ d = 14 \/ d = 15) by lia.
    repeat (destruct Hcases as [-> | Hcases]; [reflexivity|]).
    subst d. reflexivity. }
  pose proof (Hcode d1 H1) as E1. pose proof (Hcode d2 H2) as E2.
  rewrite Heq in E1. rewrite E1 in E2.
  destruct (Z.ltb_spec d1 10), (Z.ltb_spec d2 10); lia.
Qed.

Lemma format_02X_inj (v1 v2 : Z) :
  channel v1 -> channel v2 -> format_02X v1 = format_02X v2 -> v1 = v2.
Proof.
  intros H1 H2. rewrite !format_02X_digits by assumption.
  intros [= Hhi Hlo]. unfold channel in *.
  apply hex_digit_inj in Hhi;
    [|split; [apply Z.div_pos | apply Z.div_lt_upper_bound]; lia..].
  apply hex_digit_inj in Hlo; [|apply Z.mod_pos_bound; lia..].
  rewrite (Z.div_mod v1 16), (Z.div_mod v2 16) by lia. congruence.
Qed.

Lemma hex_color_inj (c1 c2 : rgb) :
  rgb_wf c1 -> rgb_wf c2 -> hex_color c1 = hex_color c2 -> c1 = c2.
Proof.
  destruct c1 as [[r1 g1] b1], c2 as [[r2 g2] b2].
  intros (Hr1 & Hg1 & Hb1) (Hr2 & Hg2 & Hb2). unfold hex_color.
  pose proof (format_02X_inj r1 r2 Hr1 Hr2) as Ir.
  pose proof (format_02X_inj g1 g2 Hg1 Hg2) as Ig.
  pose proof (format_02X_inj b1 b2 Hb1 Hb2) as Ib.
  rewrite !format_02X_digits in * by assumption. simpl.
  intros [= E1 E2 E3 E4 E5 E6].
  rewrite Ir, Ig, Ib by congruence. reflexivity.
Qed.

Lemma quantized_rgb_wf (p : pixel) : pixel_wf p -> rgb_wf (quantized_rgb p).
Proof.
  destruct p as [[[r g] b] a]. intros (Hr & Hg & Hb & _). simpl.
  rewrite !quantized_channel_nearest by assumption.
  auto using nearest_multiple_15_channel.
Qed.

Lemma quantized_opaque_wf (pixels : list pixel) (q : rgb) :
  image_wf pixels -> q ∈ quantized_opaque pixels -> rgb_wf q.
Proof.
  intros Hwf Hq. unfold quantized_opaque in Hq.
  apply list_elem_of_fmap in Hq as (p & -> & Hp).
  apply list_elem_of_filter in Hp as [_ Hp].
  apply quantized_rgb_wf. unfold image_wf in Hwf.
  rewrite Forall_forall in Hwf. apply Hwf, Hp.
Qed.

Lemma occurrences_pos_elem {K} `{EqDecision K} (k : K) (l : list K) :
  1 <= occurrences k l -> k ∈ l.
Proof.
  intros Hc. destruct (decide (k ∈ l)) as [Hin|Hnin]; [exact Hin|].
  rewrite (occurrences_not_elem k l Hnin) in Hc. lia.
Qed.

Lemma elem_of_palette (pixels : list pixel) (max_colors min_pixels : Z)
    (palette : list PaletteEntry) (e : PaletteEntry) :
  extract_color_palette pixels max_colors min_pixels = Ok palette ->
  e ∈ palette ->
  exists q, q ∈ quantized_opaque pixels /\
            min_pixels <= color_count q pixels /\
            e = entry_of (opaque_count pixels) (q, color_count q pixels).
Proof.
  rewrite extract_color_palette_ranked, slice_to_take. intros [= <-] He.
  apply list_elem_of_fmap in He as ([q c] & -> & Hx).
  pose proof (elem_of_sublist _ _ _ Hx (sublist_take _ _)) as Hr.
  apply elem_of_ranked in Hr as (Hq & -> & Hc).
  exists q. auto.
Qed.

Lemma palette_untruncated (pixels : list pixel) (max_colors min_pixels : Z) :
  Z.of_nat (size (qualifying pixels min_pixels)) <= max_colors ->
  extract_color_palette pixels max_colors min_pixels =
  Ok (entry_of (opaque_count pixels) <$> ranked pixels min_pixels).
Proof.
  intros Hmax. rewrite extract_color_palette_ranked, slice_to_nonneg by lia.
  rewrite take_ge; [reflexivity|]. rewrite length_ranked. lia.
Qed.

(** ** C3 *)

Lemma quantized_rgb_bucket (p : pixel) :
  pixel_wf p -> quantized_rgb p = bucket p.
Proof.
  destruct p as [[[r g] b] a]. intros (Hr & Hg & Hb & _). simpl.
  rewrite !quantized_channel_nearest by assumption. reflexivity.
Qed.

(** The count that the extractor keeps for a key is the number of opaque
    pixels in the bucket. *)
Lemma color_count_bucket (pixels : list pixel) (c : rgb) :
  image_wf pixels -> color_count c pixels = bucket_size c pixels.
Proof.
  unfold color_count, bucket_size, quantized_opaque, image_wf.
  induction 1 as [|p t Hp _ IH]; [reflexivity|].
  rewrite (filter_cons (fun p => is_opaque p /\ bucket p = c)).
  rewrite filter_cons. destruct (decide (is_opaque p)) as [Ho|Ho].
  - rewrite fmap_cons. cbn [occurrences].
    rewrite IH, quantized_rgb_bucket by exact Hp.
    destruct (decide (bucket p = c)) as [E|E].
    + rewrite decide_True by auto. simpl length. lia.
    + rewrite decide_False by tauto. lia.
  - rewrite IH, decide_False by tauto. reflexivity.
Qed.

(** C3: for a pixel with channels in 0..255 the key is, channel by channel,
    [round(value/15)*15]; that value is the multiple of 15 nearest to the
    channel (no channel value is equidistant from two multiples, so the
    rounding of halves never decides), and the key does not depend on alpha.
    It is the key under which [extract_color_palette] counts: when the pixel
    is an opaque pixel of a well-formed image, its bucket meets the threshold
    and [max_colors] does not truncate, the result has an entry whose color
    is the key of the pixel as [quantize] returns it and whose pixelCount is
    the number of opaque pixels, of any alpha, whose channels have the same
    nearest multiples of 15; and every entry of any result is of this kind
    for some opaque pixel of the image. *)
Theorem quantize_nearest_multiple (r g b a : Z) :
  pixel_wf (r, g, b, a) ->
  quantize (r, g, b, a) =
    Ok (Float.round (Float.fl (inject_Z r / 15)) * 15,
        Float.round (Float.fl (inject_Z g / 15)) * 15,
        Float.round (Float.fl (inject_Z b / 15)) * 15)
  /\ (exists qr qg qb,
        quantize (r, g, b, a) = Ok (qr, qg, qb) /\
        nearest_15 r qr /\ nearest_15 g qg /\ nearest_15 b qb)
  /\ (forall a', quantize (r, g, b, a') = quantize (r, g, b, a))
  /\ (forall pixels min_pixels max_colors,
        image_wf pixels ->
        (r, g, b, a) ∈ pixels -> is_opaque (r, g, b, a) ->
        min_pixels <= bucket_size (bucket (r, g, b, a)) pixels ->
        Z.of_nat (size (qualifying pixels min_pixels)) <= max_colors ->
        exists q palette e,
          quantize (r, g, b, a) = Ok q /\
          extract_color_palette pixels max_colors min_pixels = Ok palette /\
          e ∈ palette /\ color e = hex_color q /\
          pixelCount e = bucket_size q pixels)
  /\ (forall pixels min_pixels max_colors palette e,
        image_wf pixels ->
        extract_color_palette pixels max_colors min_pixels = Ok palette ->
        e ∈ palette ->
        exists p q,
          p ∈ pixels /\ is_opaque p /\ quantize p = Ok q /\
          color e = hex_color q /\ pixelCount e = bucket_size q pixels).
Proof.
  intros Hwf. pose proof Hwf as (Hr & Hg & Hb & _).
  split; [|split; [|split; [|split]]].
  - apply (quantize_Ok (r, g, b, a)).
  - exists (nearest_multiple_15 r), (nearest_multiple_15 g),
      (nearest_multiple_15 b).
    split.
    + rewrite (quantize_Ok (r, g, b, a)). unfold quantized_rgb.
      rewrite !quantized_channel_nearest by assumption. reflexivity.
    + repeat split; apply nearest_multiple_15_spec.
  - intros a'. reflexivity.
  - intros pixels min_pixels max_colors Himg Hin Ho Hmin Hmax.
    set (p := (r, g, b, a)) in *.
    assert (Hq : quantized_rgb p ∈ quantized_opaque pixels).
    { unfold quantized_opaque. apply list_elem_of_fmap_2.
      apply list_elem_of_filter. auto. }
    exists (quantized_rgb p),
      (entry_of (opaque_count pixels) <$> ranked pixels min_pixels),
      (entry_of (opaque_count pixels)
         (quantized_rgb p, color_count (quantized_rgb p) pixels)).
    split; [apply quantize_Ok|].
    split; [apply palette_untruncated, Hmax|].
    split; [|split; [reflexivity|apply color_count_bucket, Himg]].
    apply list_elem_of_fmap_2, elem_of_ranked.
    split; [exact Hq|]. split; [reflexivity|].
    rewrite color_count_bucket, quantized_rgb_bucket by assumption.
    exact Hmin.
  - intros pixels min_pixels max_colors palette e Himg Hp He.
    destruct (elem_of_palette _ _ _ _ _ Hp He) as (q & Hq & _ & ->).
    unfold quantized_opaque in Hq.
    apply list_elem_of_fmap in Hq as (p & -> & Hpin).
    apply list_elem_of_filter in Hpin as [Ho Hpin].
    exists p, (quantized_rgb p).
    split; [exact Hpin|]. split; [exact Ho|].
    split; [apply quantize_Ok|].
    split; [reflexivity|apply color_count_bucket, Himg].
Qed.

Lemma quantize_nearest_multiple_witness :
  pixel_wf (200, 10, 5, 255) /\
  quantize (200, 10, 5, 255) = Ok (195, 15, 0) /\
  exists palette e,
    extract_color_palette
      [(200, 10, 5, 255); (198, 12, 3, 128); (200, 10, 5, 0)] 5 2
      = Ok palette /\
    e ∈ palette /\ color e = "#C30F00"%string /\ pixelCount e = 2.
Proof.
  assert (Hwf : pixel_wf (200, 10, 5, 255)) by (unfold pixel_wf, channel; lia).
  split; [exact Hwf|].
  destruct (quantize_nearest_multiple 200 10 5 255 Hwf)
    as (H & _ & _ & Hkey & _).
  assert (Hq : quantize (200, 10, 5, 255) = Ok (195, 15, 0))
    by (rewrite H; vm_compute; reflexivity).
  split; [exact Hq|].
  destruct (Hkey [(200, 10, 5, 255); (198, 12, 3, 128); (200, 10, 5, 0)] 2 5)
    as (q & palette & e & Hq' & Hp & He & Hc & Hn).
  - literal_image_wf.
  - left.
  - unfold is_opaque, alpha. simpl. lia.
  - vm_compute. discriminate.
  - vm_compute. discriminate.
  - rewrite Hq in Hq'. injection Hq' as <-.
    exists palette, e. auto.
Defined.

(** ** C6 *)

(** C6: with [min_pixels >= 1], a quantized color that occurs exactly
    [min_pixels - 1] times among the opaque pixels is in no result, and one
    that occurs exactly [min_pixels] times is in the result whenever
    [max_colors] does not truncate; in general every returned entry has a
    count of at least [min_pixels], and every color with such a count is
    returned when [max_colors] does not truncate. *)
Theorem threshold_filter (pixels : list pixel) (min_pixels : Z) (q : rgb) :
  image_wf pixels -> rgb_wf q -> 1 <= min_pixels ->
  (color_count q pixels = min_pixels - 1 ->
   forall max_colors palette,
     extract_color_palette pixels max_colors min_pixels = Ok palette ->
     forall e, e ∈ palette -> color e <> hex_color q)
  /\ (color_count q pixels = min_pixels ->
      forall max_colors,
        Z.of_nat (size (qualifying pixels min_pixels)) <= max_colors ->
        exists palette e,
          extract_color_palette pixels max_colors min_pixels = Ok palette /\
          e ∈ palette /\ color e = hex_color q /\ pixelCount e = min_pixels)
  /\ (forall max_colors palette,
        extract_color_palette pixels max_colors min_pixels = Ok palette ->
        forall e, e ∈ palette ->
        exists q', color e = hex_color q' /\
                   pixelCount e = color_count q' pixels /\
                   min_pixels <= color_count q' pixels)
  /\ (min_pixels <= color_count q pixels ->
      forall max_colors,
        Z.of_nat (size (qualifying pixels min_pixels)) <= max_colors ->
        exists palette e,
          extract_color_palette pixels max_colors min_pixels = Ok palette /\
          e ∈ palette /\ color e = hex_color q /\
          pixelCount e = color_count q pixels).
Proof.
  intros Hwf Hq Hmin.
  assert (Hin : min_pixels <= color_count q pixels ->
      forall max_colors,
        Z.of_nat (size (qualifying pixels min_pixels)) <= max_colors ->
        exists palette e,
          extract_color_palette pixels max_colors min_pixels = Ok palette /\
          e ∈ palette /\ color e = hex_color q /\
          pixelCount e = color_count q pixels).
  { intros Hc max_colors Hmax.
    exists (entry_of (opaque_count pixels) <$> ranked pixels min_pixels),
      (entry_of (opaque_count pixels) (q, color_count q pixels)).
    split; [apply palette_untruncated, Hmax|].
    split; [|split; reflexivity].
    apply list_elem_of_fmap_2, elem_of_ranked.
    split; [|split; [reflexivity|exact Hc]].
    apply occurrences_pos_elem. unfold color_count in Hc. lia. }
  split; [|split; [|split]].
  - intros Hc max_colors palette Hp e He Hcol.
    destruct (elem_of_palette _ _ _ _ _ Hp He) as (q' & Hq' & Hc' & ->).
    simpl in Hcol.
    apply hex_color_inj in Hcol;
      [|eapply quantized_opaque_wf; eassumption|exact Hq].
    subst q'. lia.
  - intros Hc max_colors Hmax.
    destruct (Hin ltac:(lia) max_colors Hmax) as (palette & e & Hp & He & Hcol & Hn).
    exists palette, e. rewrite Hn, Hc. auto.
  - intros max_colors palette Hp e He.
    destruct (elem_of_palette _ _ _ _ _ Hp He) as (q' & Hq' & Hc' & ->).
    exists q'. auto.
  - exact Hin.
Qed.

Lemma threshold_filter_witness :
  image_wf [(0, 0, 0, 255); (0, 0, 0, 255); (255, 0, 0, 255)] /\
  rgb_wf (255, 0, 0) /\ 1 <= 2 /\
  color_count (255, 0, 0)
    [(0, 0, 0, 255); (0, 0, 0, 255); (255, 0, 0, 255)] = 2 - 1 /\
  forall max_colors palette,
    extract_color_palette
      [(0, 0, 0, 255); (0, 0, 0, 255); (255, 0, 0, 255)] max_colors 2
      = Ok palette ->
    forall e, e ∈ palette -> color e <> hex_color (255, 0, 0).
Proof.
  assert (Hwf : image_wf [(0, 0, 0, 255); (0, 0, 0, 255); (255, 0, 0, 255)])
    by literal_image_wf.
  assert (Hq : rgb_wf (255, 0, 0)) by (repeat split; unfold channel; lia).
  assert (Hc : color_count (255, 0, 0)
                 [(0, 0, 0, 255); (0, 0, 0, 255); (255, 0, 0, 255)] = 2 - 1)
    by (vm_compute; reflexivity).
  repeat (split; [assumption || lia|]).
  destruct (threshold_filter _ 2 (255, 0, 0) Hwf Hq ltac:(lia)) as [H _].
  exact (H Hc).
Defined.

(** ** C8 *)

(** C8: on a well-formed image, with [max_colors > 0] and [min_pixels >= 0],
    the function returns a palette and raises nothing: every quantization
    returns, and when there is an opaque pixel the divisor
    [len(opaque_pixels)] is positive, so every entry is formatted. *)
Theorem extract_color_palette_total
    (pixels : list pixel) (max_colors min_pixels : Z) :
  image_wf pixels -> 0 < max_colors -> 0 <= min_pixels ->
  (exists palette,
     extract_color_palette pixels max_colors min_pixels = Ok palette)
  /\ (forall p, exists q, quantize p = Ok q)
  /\ (filter is_opaque pixels <> [] ->
      0 < Z.of_nat (length (filter is_opaque pixels)) /\
      forall item, exists e,
        format_entry (Z.of_nat (length (filter is_opaque pixels))) item = Ok e).
Proof.
  intros _ _ _. split; [|split].
  - eexists. apply extract_color_palette_ranked.
  - intros p. eexists. apply quantize_Ok.
  - intros Hne. pose proof (opaque_count_pos pixels Hne) as Hpos.
    unfold opaque_count in Hpos. split; [exact Hpos|].
    intros item. eexists. apply format_entry_Ok. lia.
Qed.

Lemma extract_color_palette_total_witness :
  image_wf [(200, 10, 5, 255); (1, 2, 3, 0)] /\ 0 < 5 /\ 0 <= 0 /\
  exists palette,
    extract_color_palette [(200, 10, 5, 255); (1, 2, 3, 0)] 5 0 = Ok palette.
Proof.
  assert (Hwf : image_wf [(200, 10, 5, 255); (1, 2, 3, 0)])
    by literal_image_wf.
  repeat (split; [assumption || lia|]).
  exact (proj1 (extract_color_palette_total _ 5 0 Hwf ltac:(lia) ltac:(lia))).
Defined.

(** ** Order among equal counts *)

Lemma sublist_filter_mono {A} (P : A -> Prop) `{!forall x, Decision (P x)}
    (l1 l2 : list A) :
  l1 `sublist_of` l2 -> filter P l1 `sublist_of` filter P l2.
Proof.
  induction 1 as [|x l1 l2 _ IH|x l1 l2 _ IH]; [constructor| |];
    rewrite ?filter_cons; case_decide;
    auto using sublist_skip, sublist_cons.
Qed.

Lemma sublist_lookup_lt {A} (l : list A) (i j : nat) (x y : A) :
  (i < j)%nat -> l !! i = Some x -> l !! j = Some y -> [x; y] `sublist_of` l.
Proof.
  revert i j. induction l as [|z t IH]; intros i j Hij Hi Hj.
  - rewrite lookup_nil in Hi. discriminate.
  - destruct j as [|j]; [lia|]. destruct i as [|i]; simpl in *.
    + injection Hi as ->. apply sublist_skip, singleton_sublist_l.
      eapply list_elem_of_lookup_2, Hj.
    + apply sublist_cons, (IH i j); [lia|assumption..].
Qed.

Lemma first_seen_skip (q : rgb) (p : pixel) (t : list pixel) :
  ~ (is_opaque p /\ quantized_rgb p = q) ->
  first_seen q (p :: t) = S <$> first_seen q t.
Proof. intros Hn. simpl. rewrite decide_False by exact Hn. reflexivity. Qed.

Lemma quantized_opaque_cons (p : pixel) (t : list pixel) :
  quantized_opaque (p :: t) =
  if decide (is_opaque p) then quantized_rgb p :: quantized_opaque t
  else quantized_opaque t.
Proof.
  unfold quantized_opaque. rewrite filter_cons.
  case_decide; reflexivity.
Qed.

Lemma first_seen_elem (q : rgb) (pixels : list pixel) :
  q ∈ quantized_opaque pixels -> exists n, first_seen q pixels = Some n.
Proof.
  induction pixels as [|p t IH]; intros Hq.
  - unfold quantized_opaque in Hq. rewrite filter_nil in Hq.
    apply elem_of_nil in Hq. contradiction.
  - simpl. case_decide as Hp; [eauto|].
    rewrite quantized_opaque_cons in Hq.
    destruct (decide (is_opaque p)) as [Ho|Ho].
    + apply elem_of_cons in Hq as [->|Hq]; [tauto|].
      destruct (IH Hq) as [n ->]. eauto.
    + destruct (IH Hq) as [n ->]. eauto.
Qed.

(** The distinct colors are listed in the order in which the pixel sequence
    first shows them. *)
Lemma distinct_order (pixels : list pixel) (q1 q2 : rgb) :
  [q1; q2] `sublist_of` distinct (quantized_opaque pixels) ->
  exists n1 n2 : nat,
    first_seen q1 pixels = Some n1 /\ first_seen q2 pixels = Some n2 /\
    (n1 < n2)%nat.
Proof.
  induction pixels as [|p t IH]; intros Hs.
  - apply sublist_nil_r in Hs. discriminate.
  - rewrite quantized_opaque_cons in Hs.
    destruct (decide (is_opaque p)) as [Ho|Ho].
    + cbn [distinct] in Hs.
      apply sublist_cons_r in Hs as [Hs|(l' & [= -> <-] & Hs)].
      * assert (Hne1 : q1 <> quantized_rgb p /\ q2 <> quantized_rgb p).
        { split.
          - eapply (elem_of_sublist _ _ q1) in Hs; [|left].
            apply list_elem_of_filter in Hs. tauto.
          - eapply (elem_of_sublist _ _ q2) in Hs; [|right; left].
            apply list_elem_of_filter in Hs. tauto. }
        destruct IH as (n1 & n2 & H1 & H2 & Hlt).
        { etransitivity; [exact Hs|apply sublist_filter]. }
        exists (S n1), (S n2).
        rewrite !first_seen_skip, H1, H2 by (intros [_ E]; intuition congruence).
        repeat split; lia.
      * apply singleton_sublist_l, list_elem_of_filter in Hs as [Hne Hq2].
        rewrite elem_of_distinct in Hq2.
        destruct (first_seen_elem q2 t Hq2) as [n2 H2].
        exists 0%nat, (S n2). simpl.
        rewrite decide_True by auto.
        rewrite decide_False by (intros [_ E]; congruence).
        rewrite H2. repeat split; lia.
    + destruct (IH Hs) as (n1 & n2 & H1 & H2 & Hlt).
      exists (S n1), (S n2).
      rewrite !first_seen_skip, H1, H2 by tauto.
      repeat split; lia.
Qed.

(** Two ranked pairs of equal count stand in the order of first occurrence
    of their colors. *)
Lemma ranked_tie_order (pixels : list pixel) (min_pixels : Z)
    (i j : nat) (q1 q2 : rgb) (c : Z) :
  (i < j)%nat ->
  ranked pixels min_pixels !! i = Some (q1, c) ->
  ranked pixels min_pixels !! j = Some (q2, c) ->
  exists n1 n2 : nat,
    first_seen q1 pixels = Some n1 /\ first_seen q2 pixels = Some n2 /\
    (n1 < n2)%nat.
Proof.
  intros Hij Hi Hj. apply distinct_order.
  pose proof (sublist_lookup_lt _ _ _ _ _ Hij Hi Hj) as Hs.
  apply (sublist_filter_mono (fun y : rgb * Z => y.2 = c)) in Hs.
  unfold ranked in Hs. rewrite sort_desc_stable in Hs.
  rewrite !filter_cons, !decide_True, filter_nil in Hs by reflexivity.
  assert (Hs' : [(q1, c); (q2, c)] `sublist_of`
                (fun q => (q, color_count q pixels)) <$>
                  distinct (quantized_opaque pixels)).
  { etransitivity; [exact Hs|]. etransitivity; [apply sublist_filter|].
    rewrite filtered_spec. apply fmap_sublist, sublist_filter. }
  apply (fmap_sublist fst) in Hs'.
  rewrite <- list_fmap_compose in Hs'. simpl in Hs'.
  rewrite list_fmap_id in Hs'. exact Hs'.
Qed.

(** ** C10 *)

(** C10: of two returned entries with the same pixelCount, the earlier one is
    the one whose quantized color appears first in the pixel sequence (at its
    first opaque pixel of that quantized color). *)
Theorem palette_tie_order (pixels : list pixel) (max_colors min_pixels : Z) :
  exists palette,
    extract_color_palette pixels max_colors min_pixels = Ok palette /\
    forall (i j : nat) e1 e2,
      (i < j)%nat -> palette !! i = Some e1 -> palette !! j = Some e2 ->
      pixelCount e1 = pixelCount e2 ->
      exists (q1 q2 : rgb) (n1 n2 : nat),
        color e1 = hex_color q1 /\ color e2 = hex_color q2 /\
        pixelCount e1 = color_count q1 pixels /\
        pixelCount e2 = color_count q2 pixels /\
        first_seen q1 pixels = Some n1 /\ first_seen q2 pixels = Some n2 /\
        (n1 < n2)%nat.
Proof.
  eexists. split; [apply extract_color_palette_ranked|].
  intros i j e1 e2 Hij H1 H2 Hc. rewrite slice_to_take in H1, H2.
  apply list_lookup_fmap_Some in H1 as ([q1 c1] & -> & H1).
  apply list_lookup_fmap_Some in H2 as ([q2 c2] & -> & H2).
  apply lookup_take_Some in H1 as [H1 _].
  apply lookup_take_Some in H2 as [H2 _].
  simpl in Hc. subst c2.
  destruct (ranked_tie_order _ _ _ _ _ _ _ Hij H1 H2) as (n1 & n2 & F1 & F2 & Hlt).
  apply list_elem_of_lookup_2, elem_of_ranked in H1 as (_ & E1 & _).
  apply list_elem_of_lookup_2, elem_of_ranked in H2 as (_ & E2 & _).
  exists q1, q2, n1, n2. simpl. auto 10.
Qed.

(** ** The batch loop *)


Lemma snoc_eq_middle {A} (l l1 l2 : list A) (x p : A) :
  l ++ [x] = l1 ++ p :: l2 ->
  (l2 = [] /\ l = l1 /\ x = p) \/
  (exists l2', l2 = l2' ++ [x] /\ l = l1 ++ p :: l2').
Proof.
  intros E. destruct l2 as [|y l2' _] using rev_ind.
  - left. apply (app_inj_tail l l1 x p) in E as [-> ->]. auto.
  - right. exists l2'.
    change (l1 ++ p :: l2' ++ [y]) with (l1 ++ (p :: l2') ++ [y]) in E.
    rewrite app_assoc in E. apply app_inj_tail in E as [-> ->]. auto.
Qed.

Lemma dict_set_keys {V} (k : string) (v : V) (d : list (string * V)) :
  (dict_set k v d).*1 = if decide (k ∈ d.*1) then d.*1 else d.*1 ++ [k].
Proof.
  induction d as [|[k' v'] d IH]; [reflexivity|].
  cbn [dict_set]. rewrite !fmap_cons. cbn [fst].
  destruct (decide (k = k')) as [->|Hne].
  - rewrite (decide_True (P := k' ∈ k' :: d.*1)) by left. reflexivity.
  - rewrite fmap_cons, IH. cbn [fst].
    destruct (decide (k ∈ d.*1)) as [Hin|Hnin].
    + rewrite (decide_True (P := k ∈ k' :: d.*1)) by (right; exact Hin).
      reflexivity.
    + rewrite (decide_False (P := k ∈ k' :: d.*1))
        by (rewrite elem_of_cons; tauto).
      reflexivity.
Qed.

Lemma dict_set_map {V} (k : string) (v : V) (d : list (string * V)) :
  (list_to_map (dict_set k v d) : gmap string V) = <[k := v]> (list_to_map d).
Proof.
  induction d as [|[k' v'] d IH]; [reflexivity|].
  cbn [dict_set]. destruct (decide (k = k')) as [->|Hne].
  - rewrite !list_to_map_cons, insert_insert_eq. reflexivity.
  - rewrite !list_to_map_cons, IH. apply insert_insert_ne. congruence.
Qed.

Lemma elem_of_dict_set {V} (k : string) (v : V) (d : list (string * V))
    (x : string * V) :
  x ∈ dict_set k v d -> x = (k, v) \/ x ∈ d.
Proof.
  induction d as [|[k' v'] d IH]; cbn [dict_set].
  - intros Hx. apply list_elem_of_singleton in Hx. auto.
  - destruct (decide (k = k')) as [->|Hne]; intros Hx;
      apply elem_of_cons in Hx as [->|Hx].
    + auto.
    + right. right. exact Hx.
    + right. left.
    + destruct (IH Hx) as [->|Hd]; [auto|]. right. right. exact Hd.
Qed.

Lemma io_for_app {A} (body : A -> io unit) (l1 l2 : list A) (st : state) :
  io_for body (l1 ++ l2) st =
  (let! _ := io_for body l1 in io_for body l2) st.
Proof.
  revert st. induction l1 as [|x l1 IH]; intros st; [reflexivity|].
  cbn [app io_for]. unfold io_bind.
  destruct (body x st) as [st' [[]|e]]; [|reflexivity].
  rewrite IH. reflexivity.
Qed.

Section MainFacts.
Context {Path Bytes Image : Type}.
Variable stem : Path -> string.
Variable path_str : Path -> string.
Variable read_text : Path -> result string.
Variable b64decode : string -> result Bytes.
Variable Image_open : Bytes -> result Image.
Variable rgba_data : Image -> result (list pixel).
Variable print : console_line -> result unit.

Local Abbreviation process :=
  (process_asset path_str read_text b64decode Image_open rgba_data).
Local Abbreviation step :=
  (main_step stem path_str read_text b64decode Image_open rgba_data print).
Local Abbreviation loop :=
  (main_loop stem path_str read_text b64decode Image_open rgba_data print).
Local Abbreviation run :=
  (main_run stem path_str read_text b64decode Image_open rgba_data print).
Local Abbreviation returns :=
  (loop_returns stem path_str read_text b64decode Image_open rgba_data print).
Local Abbreviation items :=
  (main_items stem path_str read_text b64decode Image_open rgba_data print).
Local Abbreviation the_report :=
  (report stem path_str read_text b64decode Image_open rgba_data print).
Local Abbreviation the_console :=
  (main_console stem path_str read_text b64decode Image_open rgba_data print).
Local Abbreviation value :=
  (assigned stem path_str read_text b64decode Image_open rgba_data print).
Local Abbreviation the_processed :=
  (processed stem path_str read_text b64decode Image_open rgba_data print).

Lemma io_print_output (line : console_line) (st : state) :
  output (io_print print line st).1 = output st.
Proof. unfold io_print. destruct (print line); reflexivity. Qed.

Lemma io_print_result (line : console_line) (st : state) :
  (io_print print line st).2 = print line.
Proof. unfold io_print. destruct (print line) as [[]|e]; reflexivity. Qed.

Lemma io_print_console (line : console_line) (st : state) :
  console (io_print print line st).1 =
  console st ++ (if decide (is_Ok (print line)) then [line] else []).
Proof.
  unfold io_print. destruct (print line) as [[]|e]; simpl.
  - reflexivity.
  - rewrite app_nil_r. reflexivity.
Qed.

(** The iteration, case by case. *)
Lemma main_step_eq (p : Path) (st : state) :
  step p st =
  match print (Processing (stem p)) with
  | Raise e => io_print print (Error e) st
  | Ok _ =>
      let st1 := {| output := output st;
                    console := console st ++ [Processing (stem p)] |} in
      match process p with
      | Raise e => io_print print (Error e) st1
      | Ok r =>
          let st2 := {| output := dict_set (stem p) r (output st);
                        console := console st1 |} in
          match print (Found (colorCount r)) with
          | Ok _ =>
              ({| output := output st2;
                  console := console st2 ++ [Found (colorCount r)] |}, Ok tt)
          | Raise e => io_print print (Error e) st2
          end
      end
  end.
Proof.
  unfold main_step, io_try, io_bind, io_print, io_lift, set_output.
  destruct (print (Processing (stem p))); [|reflexivity].
  destruct (process p) as [r|e]; [|reflexivity]. simpl.
  destruct (print (Found (colorCount r))); reflexivity.
Qed.

(** What an iteration does to [output] does not depend on how it ends. *)
Lemma main_step_output (p : Path) (st : state) :
  output (step p st).1 =
  match value p with
  | Ok r => dict_set (stem p) r (output st)
  | Raise _ => output st
  end.
Proof.
  rewrite main_step_eq. unfold assigned.
  destruct (print (Processing (stem p))) as [[]|e0]; cbn [bind].
  - destruct (process p) as [r|e]; cbn zeta.
    + destruct (print (Found (colorCount r))); [reflexivity|].
      rewrite io_print_output. reflexivity.
    + rewrite io_print_output. reflexivity.
  - apply io_print_output.
Qed.

(** Whether an iteration returns does not depend on the state. *)
Lemma main_step_result (p : Path) (st st' : state) :
  (step p st).2 = (step p st').2.
Proof.
  rewrite !main_step_eq.
  destruct (print (Processing (stem p))) as [[]|e0];
    [|rewrite !io_print_result; reflexivity].
  destruct (process p) as [r|e]; cbn zeta;
    [|rewrite !io_print_result; reflexivity].
  destruct (print (Found (colorCount r)));
    [reflexivity|rewrite !io_print_result; reflexivity].
Qed.

Lemma run_snoc (l : list Path) (p : Path) :
  run (l ++ [p]) =
  match run l with
  | (st, Ok _) => step p st
  | (st, Raise e) => (st, Raise e)
  end.
Proof.
  unfold main_run, main_loop. rewrite io_for_app. unfold io_bind at 1.
  destruct (io_for _ l _) as [st [[]|e]]; [|reflexivity].
  cbn [io_for]. unfold io_bind, io_ret.
  destruct (step p st) as [st' [[]|e]]; reflexivity.
Qed.

Lemma returns_snoc (l : list Path) (p : Path) :
  returns (l ++ [p]) <-> returns l /\ is_Ok (step p (run l).1).2.
Proof.
  unfold loop_returns. rewrite run_snoc.
  destruct (run l) as [st [[]|e]]; simpl; tauto.
Qed.

Lemma items_snoc (l : list Path) (p : Path) :
  returns l ->
  items (l ++ [p]) =
  match value p with
  | Ok r => dict_set (stem p) r (items l)
  | Raise _ => items l
  end.
Proof.
  unfold loop_returns, main_items. rewrite run_snoc.
  destruct (run l) as [st [[]|e]]; simpl; [|contradiction].
  intros _. apply main_step_output.
Qed.

Lemma report_snoc (l : list Path) (p : Path) :
  returns l ->
  the_report (l ++ [p]) =
  match value p with
  | Ok r => <[stem p := r]> (the_report l)
  | Raise _ => the_report l
  end.
Proof.
  intros Hl. unfold report. rewrite (items_snoc l p Hl).
  destruct (value p); [apply dict_set_map|reflexivity].
Qed.

Lemma processed_snoc (l : list Path) (p : Path) :
  the_processed (l ++ [p]) =
  the_processed l ++ (if decide (is_Ok (value p)) then [p] else []).
Proof. unfold processed. rewrite filter_app. reflexivity. Qed.


Lemma assigned_Ok (p : Path) (r : AssetPaletteResult) :
  value p = Ok r <->
  is_Ok (print (Processing (stem p))) /\ process p = Ok r.
Proof.
  unfold assigned. destruct (print _) as [[]|e]; simpl.
  - tauto.
  - split; [discriminate|tauto].
Qed.

(** An exception raised before the assignment goes to the [except] clause,
    and the iteration ends as the [print] there does. *)
Lemma main_step_caught (p : Path) (e : exception) (st : state) :
  value p = Raise e -> (step p st).2 = print (Error e).
Proof.
  intros Ev. rewrite main_step_eq. unfold assigned in Ev.
  destruct (print (Processing (stem p))) as [[]|e0]; cbn [bind] in Ev.
  - rewrite Ev. apply io_print_result.
  - injection Ev as ->. apply io_print_result.
Qed.

(** So does one raised by the [print] after the assignment. *)
Lemma main_step_caught_late
    (p : Path) (r : AssetPaletteResult) (e : exception) (st : state) :
  value p = Ok r -> print (Found (colorCount r)) = Raise e ->
  (step p st).2 = print (Error e).
Proof.
  intros Ev Ef. rewrite main_step_eq. apply assigned_Ok in Ev as [Hpr Ev].
  destruct (print (Processing (stem p))) as [[]|e0]; [|contradiction].
  rewrite Ev. cbn zeta. rewrite Ef. apply io_print_result.
Qed.

(** The entry under a name comes from the last asset of that identifier
    whose iteration reached the assignment. *)
Lemma report_lookup_last
    (svg_files : list Path) (name : string) (r : AssetPaletteResult) :
  returns svg_files ->
  the_report svg_files !! name = Some r <->
  exists l1 p l2,
    svg_files = l1 ++ p :: l2 /\ stem p = name /\ value p = Ok r /\
    forall p', p' ∈ l2 -> stem p' = name -> ~ is_Ok (value p').
Proof.
  induction svg_files as [|p0 l IH] using rev_ind; intros Hret.
  - unfold report, main_items, main_run. simpl. rewrite lookup_empty.
    split; [discriminate|].
    intros (l1 & p & l2 & E & _). destruct l1; discriminate.
  - apply returns_snoc in Hret as [Hret _]. specialize (IH Hret).
    rewrite (report_snoc _ _ Hret).
    destruct (value p0) as [r0|e] eqn:Ep0.
    + destruct (decide (name = stem p0)) as [->|Hne].
      * rewrite lookup_insert_eq. split.
        -- intros [= ->]. exists l, p0, []. repeat split; auto.
           intros p' Hp'. apply elem_of_nil in Hp'. contradiction.
        -- intros (l1 & p & l2 & E & Hs & Hr & Hlast).
           apply snoc_eq_middle in E as [(-> & -> & ->)|(l2' & -> & ->)].
           ++ congruence.
           ++ exfalso. apply (Hlast p0); [|reflexivity|rewrite Ep0; exact I].
              apply elem_of_app. right. left.
      * rewrite lookup_insert_ne by congruence. rewrite IH. split.
        -- intros (l1 & p & l2 & E & Hs & Hr & Hlast).
           exists l1, p, (l2 ++ [p0]). subst l.
           rewrite <- app_assoc. repeat split; auto.
           intros p' Hp'. apply elem_of_app in Hp' as [Hp'|Hp']; [auto|].
           apply list_elem_of_singleton in Hp' as ->. congruence.
        -- intros (l1 & p & l2 & E & Hs & Hr & Hlast).
           apply snoc_eq_middle in E as [(-> & -> & ->)|(l2' & -> & ->)];
             [congruence|].
           exists l1, p, l2'. repeat split; auto.
           intros p' Hp'. apply Hlast, elem_of_app. left. exact Hp'.
    + rewrite IH. split.
      * intros (l1 & p & l2 & E & Hs & Hr & Hlast).
        exists l1, p, (l2 ++ [p0]). subst l.
        rewrite <- app_assoc. repeat split; auto.
        intros p' Hp'. apply elem_of_app in Hp' as [Hp'|Hp']; [auto|].
        apply list_elem_of_singleton in Hp' as ->. rewrite Ep0. auto.
      * intros (l1 & p & l2 & E & Hs & Hr & Hlast).
        apply snoc_eq_middle in E as [(-> & -> & ->)|(l2' & -> & ->)];
          [congruence|].
        exists l1, p, l2'. repeat split; auto.
        intros p' Hp'. apply Hlast, elem_of_app. left. exact Hp'.
Qed.

(** The keys of [output], in order. *)
Lemma items_keys (svg_files : list Path) :
  returns svg_files ->
  (items svg_files).*1 = distinct (stem <$> the_processed svg_files).
Proof.
  induction svg_files as [|p l IH] using rev_ind; intros Hret;
    [reflexivity|].
  apply returns_snoc in Hret as [Hret _]. specialize (IH Hret).
  rewrite (items_snoc _ _ Hret), processed_snoc.
  destruct (value p) as [r|e].
  - rewrite decide_True by exact I.
    rewrite dict_set_keys, (fmap_app stem).
    change (stem <$> [p]) with [stem p]. rewrite distinct_snoc, IH.
    destruct (decide (stem p ∈ stem <$> the_processed l)) as [Hin|Hnin].
    + rewrite decide_True by (rewrite elem_of_distinct; exact Hin).
      reflexivity.
    + rewrite decide_False by (rewrite elem_of_distinct; exact Hnin).
      reflexivity.
  - rewrite decide_False by (intros []). rewrite app_nil_r. exact IH.
Qed.





End MainFacts.



(** ** Rounding to the nearest integer *)

Section RoundNearestEven.
Local Open Scope Q_scope.
Import Float.

Lemma frac_bounds (x : Q) : 0 <= x - inject_Z (Qfloor x) < 1.
Proof.
  pose proof (Qfloor_le x) as H1. pose proof (Qlt_floor x) as H2.
  rewrite inject_Z_plus in H2. change (inject_Z 1) with 1 in H2.
  split; lra.
Qed.

Lemma rne_floor (x : Q) : (Qfloor x <= rne x <= Qfloor x + 1)%Z.
Proof.
  unfold rne.
  destruct (x - inject_Z (Qfloor x) ?= 1 # 2); [destruct (Z.even _)|..]; lia.
Qed.

Lemma rne_error (x : Q) : x - (1 # 2) <= inject_Z (rne x) <= x + (1 # 2).
Proof.
  pose proof (frac_bounds x) as [H0 H1]. unfold rne.
  destruct (Qcompare_spec (x - inject_Z (Qfloor x)) (1 # 2)) as [E|E|E];
    [destruct (Z.even _)|..];
    rewrite ?inject_Z_plus; change (inject_Z 1) with 1; split; lra.
Qed.

Lemma rne_Z (z : Z) : rne (inject_Z z) = z.
Proof.
  unfold rne. rewrite Qfloor_Z.
  destruct (Qcompare_spec (inject_Z z - inject_Z z) (1 # 2)) as [E|E|E].
  - lra.
  - reflexivity.
  - lra.
Qed.

Global Instance rne_comp : Proper (Qeq ==> eq) rne.
Proof.
  intros x y E. unfold rne. rewrite (Qfloor_comp _ _ E), E. reflexivity.
Qed.

Lemma rne_mono (x y : Q) : x <= y -> (rne x <= rne y)%Z.
Proof.
  intros Hxy. pose proof (Qfloor_resp_le _ _ Hxy) as Hf.
  destruct (Z.eq_dec (Qfloor x) (Qfloor y)) as [E|NE].
  - unfold rne. rewrite E.
    destruct (Qcompare_spec (x - inject_Z (Qfloor y)) (1 # 2)) as [E1|E1|E1];
    destruct (Qcompare_spec (y - inject_Z (Qfloor y)) (1 # 2)) as [E2|E2|E2];
    try destruct (Z.even _); try lia; lra.
  - pose proof (rne_floor x). pose proof (rne_floor y). lia.
Qed.

End RoundNearestEven.

Section PowersOfTwo.
Local Open Scope Q_scope.
Import Float.

Lemma pow2_pos (e : Z) : 0 < 2 ^ e.
Proof. apply Qpower_0_lt. reflexivity. Qed.

Lemma pow2_add (a b : Z) : 2 ^ (a + b) == 2 ^ a * 2 ^ b.
Proof. apply Qpower_plus. discriminate. Qed.

Lemma pow2_le (a b : Z) : (a <= b)%Z -> 2 ^ a <= 2 ^ b.
Proof. intros H. apply Qpower_le_compat_l; [exact H|discriminate]. Qed.

Lemma pow2_lt (a b : Z) : (a < b)%Z -> 2 ^ a < 2 ^ b.
Proof. intros H. apply Qpower_lt_compat_l; [exact H|reflexivity]. Qed.

Lemma pow2_lt_inv (a b : Z) : 2 ^ a < 2 ^ b -> (a < b)%Z.
Proof. intros H. eapply Qpower_lt_compat_l_inv; [exact H|reflexivity]. Qed.

Lemma pow2_Z (a : Z) : (0 <= a)%Z -> inject_Z (2 ^ a) == 2 ^ a.
Proof. intros H. apply (Zpower_Qpower 2 a H). Qed.

Lemma pow2_succ (a : Z) : 2 ^ (a + 1) == 2 * 2 ^ a.
Proof. rewrite pow2_add. change (2 ^ 1) with 2. ring. Qed.

(** Scaling by a power of two and back. *)
Lemma scale_back (x : Q) (e : Z) : x / 2 ^ e * 2 ^ e == x.
Proof. field. pose proof (pow2_pos e). lra. Qed.

Lemma Zlog2_Q (n : Z) :
  (0 < n)%Z -> 2 ^ Z.log2 n <= inject_Z n < 2 ^ (Z.log2 n + 1).
Proof.
  intros Hn. destruct (Z.log2_spec n Hn) as [H1 H2].
  pose proof (Z.log2_nonneg n) as H0.
  rewrite <- !pow2_Z by lia. rewrite <- Zle_Qle, <- Zlt_Qlt.
  unfold Z.succ in H2. split; assumption.
Qed.

Lemma ilog2_spec (x : Q) : 0 < x -> 2 ^ ilog2 x <= x < 2 ^ (ilog2 x + 1).
Proof.
  intros Hx. destruct x as [n d].
  assert (Hn : (0 < n)%Z) by (unfold Qlt in Hx; simpl in Hx; lia).
  destruct (Zlog2_Q n Hn) as [Hn1 Hn2].
  destruct (Zlog2_Q (Zpos d) ltac:(lia)) as [Hd1 Hd2].
  set (a := Z.log2 n) in *. set (b := Z.log2 (Zpos d)) in *.
  assert (Hxd : (n # d) * inject_Z (Zpos d) == inject_Z n).
  { rewrite (Qmake_Qdiv n d). field. discriminate. }
  assert (Hdpos : 0 < inject_Z (Zpos d)) by reflexivity.
  pose proof (pow2_pos b) as Hbpos. pose proof (pow2_pos (a - b)) as Hkpos.
  assert (Hlow : 2 ^ (a - b - 1) < n # d).
  { apply (Qmult_lt_r _ _ (inject_Z (Zpos d)) Hdpos). rewrite Hxd.
    apply Qlt_le_trans with (2 ^ (a - b - 1) * 2 ^ (b + 1)).
    - apply Qmult_lt_l; [apply pow2_pos|exact Hd2].
    - rewrite <- pow2_add. replace (a - b - 1 + (b + 1))%Z with a by lia.
      exact Hn1. }
  assert (Hhigh : n # d < 2 ^ (a - b + 1)).
  { apply (Qmult_lt_r _ _ (inject_Z (Zpos d)) Hdpos). rewrite Hxd.
    apply Qlt_le_trans with (2 ^ (a - b + 1) * 2 ^ b).
    - rewrite <- pow2_add. replace (a - b + 1 + b)%Z with (a + 1)%Z by lia.
      exact Hn2.
    - apply Qmult_le_l; [apply pow2_pos|exact Hd1]. }
  unfold ilog2. cbn [Qnum Qden]. fold a b.
  destruct (Qle_bool (2 ^ (a - b)) (n # d)) eqn:E.
  - apply Qle_bool_iff in E. split; assumption.
  - assert (~ 2 ^ (a - b) <= n # d) as E'
      by (rewrite <- Qle_bool_iff; congruence).
    apply Qnot_le_lt in E'.
    replace (a - b - 1 + 1)%Z with (a - b)%Z by lia.
    split; [apply Qlt_le_weak, Hlow|exact E'].
Qed.

Lemma ilog2_unique (x : Q) (k : Z) :
  2 ^ k <= x < 2 ^ (k + 1) -> ilog2 x = k.
Proof.
  intros [H1 H2].
  assert (Hx : 0 < x) by (pose proof (pow2_pos k); lra).
  destruct (ilog2_spec x Hx) as [H3 H4].
  assert (k < ilog2 x + 1)%Z by (apply pow2_lt_inv; lra).
  assert (ilog2 x < k + 1)%Z by (apply pow2_lt_inv; lra).
  lia.
Qed.

Lemma ilog2_mono (x y : Q) : 0 < x -> x <= y -> (ilog2 x <= ilog2 y)%Z.
Proof.
  intros Hx Hxy.
  destruct (ilog2_spec x Hx) as [H1 _].
  destruct (ilog2_spec y ltac:(lra)) as [_ H2].
  assert (ilog2 x < ilog2 y + 1)%Z by (apply pow2_lt_inv; lra).
  lia.
Qed.

End PowersOfTwo.

Section Rounding.
Local Open Scope Q_scope.
Import Float.

Lemma fexp_ge (x : Q) : (ilog2 x - 52 <= fexp x)%Z /\ (-1074 <= fexp x)%Z.
Proof. unfold fexp. lia. Qed.

Lemma fexp_mono (x y : Q) : 0 < x -> x <= y -> (fexp x <= fexp y)%Z.
Proof.
  intros Hx Hxy. pose proof (ilog2_mono x y Hx Hxy). unfold fexp. lia.
Qed.

Lemma ilog2_comp (x y : Q) : 0 < x -> x == y -> ilog2 x = ilog2 y.
Proof.
  intros Hx E. apply ilog2_unique. rewrite E.
  apply ilog2_spec. rewrite <- E. exact Hx.
Qed.

Lemma fl_pos_eq (x : Q) :
  fl_pos x == inject_Z (rne (x / 2 ^ fexp x)) * 2 ^ fexp x.
Proof. unfold fl_pos. apply Qred_correct. Qed.

Lemma fl_pos_comp (x y : Q) : 0 < x -> x == y -> fl_pos x = fl_pos y.
Proof.
  intros Hx E. unfold fl_pos, fexp. rewrite (ilog2_comp x y Hx E).
  apply Qred_complete. rewrite E. reflexivity.
Qed.

(** The scaled value has at most 53 bits before the point. *)
Lemma scaled_lt (x : Q) : 0 < x -> x / 2 ^ fexp x < 2 ^ 53.
Proof.
  intros Hx. destruct (ilog2_spec x Hx) as [_ H].
  pose proof (fexp_ge x) as [He _]. pose proof (pow2_pos (fexp x)) as Hp.
  apply Qlt_shift_div_r; [exact Hp|]. rewrite <- pow2_add.
  eapply Qlt_le_trans; [exact H|]. apply pow2_le. lia.
Qed.

Lemma scaled_ge (x : Q) :
  0 < x -> fexp x = (ilog2 x - 52)%Z -> 2 ^ 52 <= x / 2 ^ fexp x.
Proof.
  intros Hx He. destruct (ilog2_spec x Hx) as [H _].
  pose proof (pow2_pos (fexp x)) as Hp.
  apply Qle_shift_div_l; [exact Hp|]. rewrite <- pow2_add.
  replace (52 + fexp x)%Z with (ilog2 x) by lia. exact H.
Qed.

Lemma rne_pow2 (k : Z) : (0 <= k)%Z -> inject_Z (rne (2 ^ k)) == 2 ^ k.
Proof.
  intros Hk. rewrite <- (pow2_Z k Hk) at 1. rewrite rne_Z. apply pow2_Z, Hk.
Qed.

Lemma fl_pos_upper (x : Q) : 0 < x -> fl_pos x <= 2 ^ (fexp x + 53).
Proof.
  intros Hx. rewrite fl_pos_eq, Z.add_comm, pow2_add.
  apply Qmult_le_compat_r; [|apply Qlt_le_weak, pow2_pos].
  rewrite <- (rne_pow2 53) by lia. rewrite <- Zle_Qle.
  apply rne_mono, Qlt_le_weak, scaled_lt, Hx.
Qed.

Lemma fl_pos_lower (x : Q) :
  0 < x -> fexp x = (ilog2 x - 52)%Z -> 2 ^ (fexp x + 52) <= fl_pos x.
Proof.
  intros Hx He. rewrite fl_pos_eq, Z.add_comm, pow2_add.
  apply Qmult_le_compat_r; [|apply Qlt_le_weak, pow2_pos].
  rewrite <- (rne_pow2 52) by lia. rewrite <- Zle_Qle.
  apply rne_mono, scaled_ge; assumption.
Qed.

Lemma fl_pos_nonneg (x : Q) : 0 < x -> 0 <= fl_pos x.
Proof.
  intros Hx. rewrite fl_pos_eq. pose proof (pow2_pos (fexp x)) as Hp.
  apply Qmult_le_0_compat; [|lra].
  change 0 with (inject_Z 0). rewrite <- Zle_Qle.
  rewrite <- (rne_Z 0). apply rne_mono.
  apply Qle_shift_div_l; [exact Hp|]. change (inject_Z 0) with 0. lra.
Qed.

(** Rounding to the nearest double is monotone. *)
Lemma fl_pos_mono (x y : Q) : 0 < x -> x <= y -> fl_pos x <= fl_pos y.
Proof.
  intros Hx Hxy. assert (Hy : 0 < y) by lra.
  pose proof (fexp_mono x y Hx Hxy) as He.
  destruct (Z.eq_dec (fexp x) (fexp y)) as [E|NE].
  - rewrite !fl_pos_eq, E. pose proof (pow2_pos (fexp y)) as Hp.
    apply Qmult_le_compat_r; [|lra]. rewrite <- Zle_Qle.
    apply rne_mono. apply Qmult_le_compat_r; [exact Hxy|].
    apply Qlt_le_weak, Qinv_lt_0_compat, Hp.
  - assert (Hun : fexp y = (ilog2 y - 52)%Z).
    { pose proof (fexp_ge x). unfold fexp in *. lia. }
    eapply Qle_trans; [apply fl_pos_upper, Hx|].
    eapply Qle_trans; [|apply fl_pos_lower; assumption].
    apply pow2_le. lia.
Qed.

(** The rounding error is at most half a unit in the last place. *)
Lemma fl_pos_error (x : Q) :
  x - 2 ^ (fexp x - 1) <= fl_pos x <= x + 2 ^ (fexp x - 1).
Proof.
  rewrite fl_pos_eq. pose proof (pow2_pos (fexp x)) as Hp.
  pose proof (rne_error (x / 2 ^ fexp x)) as [H1 H2].
  assert (Hh : 2 ^ (fexp x - 1) == (1 # 2) * 2 ^ fexp x).
  { unfold Z.sub. rewrite pow2_add. change (2 ^ (-1)) with (1 # 2).
    apply Qmult_comm. }
  rewrite Hh.
  apply (Qmult_le_compat_r _ _ (2 ^ fexp x)) in H1; [|lra].
  apply (Qmult_le_compat_r _ _ (2 ^ fexp x)) in H2; [|lra].
  pose proof (scale_back x (fexp x)) as Hs.
  set (s := x / 2 ^ fexp x) in *. set (m := inject_Z (rne s)) in *.
  set (P := 2 ^ fexp x) in *. split; lra.
Qed.

End Rounding.

Section NonNegative.
Local Open Scope Q_scope.
Import Float.

Lemma fl_of_pos (x : Q) : 0 < x -> fl x = fl_pos x.
Proof.
  intros Hx. unfold fl. destruct x as [[|n|n] d]; try reflexivity;
    unfold Qlt in Hx; simpl in Hx; lia.
Qed.

Lemma fl_of_zero (x : Q) : x == 0 -> fl x = 0.
Proof.
  intros Hx. unfold fl. destruct x as [[|n|n] d]; try reflexivity;
    unfold Qeq in Hx; simpl in Hx; lia.
Qed.

Lemma nonneg_cases (x : Q) : 0 <= x -> x == 0 \/ 0 < x.
Proof. intros Hx. destruct (Qlt_le_dec 0 x); [right; assumption|left; lra]. Qed.

Lemma fl_nonneg (x : Q) : 0 <= x -> 0 <= fl x.
Proof.
  intros Hx. destruct (nonneg_cases x Hx) as [E|Hp].
  - rewrite (fl_of_zero x E). lra.
  - rewrite (fl_of_pos x Hp). apply fl_pos_nonneg, Hp.
Qed.

Lemma fl_mono (x y : Q) : 0 <= x -> x <= y -> fl x <= fl y.
Proof.
  intros Hx Hxy. destruct (nonneg_cases x Hx) as [E|Hp].
  - rewrite (fl_of_zero x E). apply fl_nonneg. lra.
  - rewrite (fl_of_pos x Hp), (fl_of_pos y) by lra.
    apply fl_pos_mono; assumption.
Qed.

Lemma fl_comp (x y : Q) : 0 <= x -> x == y -> fl x = fl y.
Proof.
  intros Hx E. destruct (nonneg_cases x Hx) as [E0|Hp].
  - rewrite (fl_of_zero x E0), (fl_of_zero y); [reflexivity|].
    rewrite <- E. exact E0.
  - rewrite (fl_of_pos x Hp), (fl_of_pos y) by (rewrite <- E; exact Hp).
    apply fl_pos_comp; assumption.
Qed.

(** A value below [2^(k+1)] is rounded up by at most [2^(k-53)]. *)
Lemma fl_upper_error (x : Q) (k : Z) :
  0 <= x -> x < 2 ^ (k + 1) -> (-1022 <= k)%Z -> fl x <= x + 2 ^ (k - 53).
Proof.
  intros Hx Hk Hmin. pose proof (pow2_pos (k - 53)) as Hp.
  destruct (nonneg_cases x Hx) as [E|Hpos].
  - rewrite (fl_of_zero x E). lra.
  - rewrite (fl_of_pos x Hpos).
    destruct (fl_pos_error x) as [_ H]. eapply Qle_trans; [exact H|].
    apply Qplus_le_r. apply pow2_le.
    destruct (ilog2_spec x Hpos) as [Hl _].
    assert (ilog2 x < k + 1)%Z by (apply pow2_lt_inv; lra).
    unfold fexp. lia.
Qed.

End NonNegative.

Section Percent.
Local Open Scope Q_scope.
Import Float.

Lemma fl_1 : fl 1 = 1.
Proof. vm_compute. reflexivity. Qed.

Lemma fl_100 : fl 100 = 100.
Proof. vm_compute. reflexivity. Qed.

Lemma fl_le_1 (x : Q) : 0 <= x -> x <= 1 -> fl x <= 1.
Proof.
  intros H0 H1. pose proof (fl_mono x 1 H0 H1) as H.
  rewrite fl_1 in H. exact H.
Qed.

Lemma fl_le_100 (x : Q) : 0 <= x -> x <= 100 -> fl x <= 100.
Proof.
  intros H0 H1. pose proof (fl_mono x 100 H0 H1) as H.
  rewrite fl_100 in H. exact H.
Qed.

Lemma share_bounds (c T : Z) :
  (0 <= c <= T)%Z -> (0 < T)%Z ->
  0 <= inject_Z c / inject_Z T <= 1.
Proof.
  intros Hc HT.
  assert (HTq : 0 < inject_Z T)
    by (change 0 with (inject_Z 0); rewrite <- Zlt_Qlt; exact HT).
  assert (Hcq : 0 <= inject_Z c)
    by (change 0 with (inject_Z 0); rewrite <- Zle_Qle; lia).
  assert (HcT : inject_Z c <= inject_Z T) by (rewrite <- Zle_Qle; lia).
  split.
  - apply Qle_shift_div_l; [exact HTq|]. lra.
  - apply Qle_shift_div_r; [exact HTq|]. lra.
Qed.

(** The percentage of a count within the total: between 0 and 100, and above
    the exact share by at most half a hundredth and the binary roundings. *)
Lemma percent_of_bounds (c T : Z) :
  (0 <= c <= T)%Z -> (0 < T)%Z ->
  0 <= percent_of c T <= 100 /\
  percent_of c T <= 100 * (inject_Z c / inject_Z T) + (1 # 200) + 2 ^ (-45).
Proof.
  intros Hc HT. destruct (share_bounds c T Hc HT) as [Hs0 Hs1].
  unfold percent_of, round2, mul. set (s := inject_Z c / inject_Z T) in *.
  change (inject_Z 100) with 100.
  (* the quotient *)
  assert (Hv0 : 0 <= fl s) by (apply fl_nonneg, Hs0).
  assert (Hv1 : fl s <= 1) by (apply fl_le_1; assumption).
  assert (Hve : fl s <= s + 2 ^ (-53)).
  { apply (fl_upper_error s 0); [exact Hs0| |lia].
    change (2 ^ (0 + 1)) with 2. lra. }
  set (v := fl s) in *.
  (* times 100 *)
  assert (Hw0 : 0 <= fl (v * 100)) by (apply fl_nonneg; lra).
  assert (Hw1 : fl (v * 100) <= 100) by (apply fl_le_100; lra).
  assert (Hwe : fl (v * 100) <= v * 100 + 2 ^ (-47)).
  { apply (fl_upper_error (v * 100) 6); [lra| |lia].
    change (2 ^ (6 + 1)) with 128. lra. }
  set (w := fl (v * 100)) in *.
  (* the number of hundredths *)
  destruct (rne_error (w * 100)) as [_ Hke].
  assert (Hk0 : (0 <= rne (w * 100))%Z).
  { rewrite <- (rne_Z 0). apply rne_mono. change (inject_Z 0) with 0. lra. }
  assert (Hk1 : (rne (w * 100) <= 10000)%Z).
  { rewrite <- (rne_Z 10000). apply rne_mono.
    change (inject_Z 10000) with 10000. lra. }
  set (k := rne (w * 100)) in *.
  assert (Hkq0 : 0 <= inject_Z k)
    by (change 0 with (inject_Z 0); rewrite <- Zle_Qle; exact Hk0).
  assert (Hkq1 : inject_Z k <= 10000)
    by (change 10000 with (inject_Z 10000); rewrite <- Zle_Qle; exact Hk1).
  (* the double nearest to it *)
  assert (Hd : inject_Z k / 100 == inject_Z k * (1 # 100)) by (field).
  assert (Hp0 : 0 <= fl (inject_Z k / 100)) by (apply fl_nonneg; lra).
  assert (Hp1 : fl (inject_Z k / 100) <= 100) by (apply fl_le_100; lra).
  assert (Hpe : fl (inject_Z k / 100) <= inject_Z k / 100 + 2 ^ (-47)).
  { apply (fl_upper_error _ 6); [lra| |lia].
    change (2 ^ (6 + 1)) with 128. lra. }
  split; [split; assumption|].
  change (2 ^ (-45)) with (1 # 35184372088832).
  change (2 ^ (-47)) with (1 # 140737488355328) in *.
  change (2 ^ (-53)) with (1 # 9007199254740992) in *.
  lra.
Qed.

End Percent.

(** ** Sums of counts and of percentages *)

Section Sums.
Context {A : Type}.
Implicit Types (l : list A).

Lemma Zsum_fmap {B} (f : B -> Z) (g : A -> B) l :
  Zsum f (g <$> l) = Zsum (fun x => f (g x)) l.
Proof.
  unfold Zsum. induction l as [|x t IH]; simpl; [reflexivity|].
  f_equal. exact IH.
Qed.

Lemma Zsum_perm (f : A -> Z) l1 l2 : l1 ≡ₚ l2 -> Zsum f l1 = Zsum f l2.
Proof. induction 1; simpl; lia. Qed.

Lemma Zsum_sublist (f : A -> Z) l1 l2 :
  (forall x, x ∈ l2 -> 0 <= f x) -> l1 `sublist_of` l2 ->
  Zsum f l1 <= Zsum f l2.
Proof.
  intros Hf Hs. induction Hs as [|x l1 l2 _ IH|x l1 l2 _ IH]; simpl.
  - lia.
  - specialize (IH (fun y Hy => Hf y ltac:(right; exact Hy))). lia.
  - specialize (IH (fun y Hy => Hf y ltac:(right; exact Hy))).
    pose proof (Hf x ltac:(left)). lia.
Qed.

Lemma Qsum_le (f g : A -> Q) l :
  (forall x, x ∈ l -> (f x <= g x)%Q) -> (Qsum f l <= Qsum g l)%Q.
Proof.
  induction l as [|x t IH]; intros H; simpl.
  - lra.
  - pose proof (H x ltac:(left)) as Hx.
    pose proof (IH (fun y Hy => H y ltac:(right; exact Hy))) as Ht.
    lra.
Qed.

Lemma Qsum_affine (a b : Q) (h : A -> Z) l :
  (Qsum (fun x => a * inject_Z (h x) + b) l ==
   a * inject_Z (Zsum h l) + inject_Z (Z.of_nat (length l)) * b)%Q.
Proof.
  induction l as [|x t IH]; simpl length; simpl Qsum; simpl Zsum.
  - change (inject_Z 0) with 0%Q. ring.
  - rewrite IH, Nat2Z.inj_succ. unfold Z.succ. rewrite !inject_Z_plus.
    change (inject_Z 1) with 1%Q. ring.
Qed.

Lemma Qsum_fmap {B} (f : B -> Q) (g : A -> B) l :
  Qsum f (g <$> l) = Qsum (fun x => f (g x)) l.
Proof.
  unfold Qsum. induction l as [|x t IH]; simpl; [reflexivity|].
  f_equal. exact IH.
Qed.

End Sums.

Section CountSums.
Context {K : Type} `{EqDecision K}.
Implicit Types (l L : list K).

Lemma occurrences_le_length (k : K) l :
  occurrences k l <= Z.of_nat (length l).
Proof.
  induction l as [|x t IH]; simpl length; simpl occurrences; [lia|].
  case_decide; lia.
Qed.

Lemma Zsum_indicator (x : K) L :
  NoDup L -> Zsum (fun k => if decide (x = k) then 1 else 0) L <= 1.
Proof.
  induction 1 as [|y t Hy _ IH]; simpl; [lia|].
  case_decide as E; [|lia]. subst y.
  assert (Zsum (fun k => if decide (x = k) then 1 else 0) t = 0); [|lia].
  clear IH. induction t as [|z t IH]; simpl; [reflexivity|].
  apply not_elem_of_cons in Hy as [Hz Ht].
  rewrite decide_False by exact Hz. rewrite IH by exact Ht. reflexivity.
Qed.

(** Distinct keys share out the elements of the list. *)
Lemma Zsum_occurrences L l :
  NoDup L -> Zsum (fun k => occurrences k l) L <= Z.of_nat (length l).
Proof.
  intros Hnd. induction l as [|x t IH]; simpl length.
  - induction L as [|k L IHL]; simpl; [lia|].
    apply NoDup_cons in Hnd as [_ Hnd]. specialize (IHL Hnd).
    simpl in IHL. lia.
  - assert (Hsplit : Zsum (fun k => occurrences k (x :: t)) L =
                     Zsum (fun k => if decide (x = k) then 1 else 0) L +
                     Zsum (fun k => occurrences k t) L).
    { clear. induction L as [|k L IHL]; simpl; [reflexivity|].
      simpl in IHL. rewrite IHL. lia. }
    rewrite Hsplit. pose proof (Zsum_indicator x L Hnd). lia.
Qed.

End CountSums.

Lemma ranked_counts_sum (pixels : list pixel) (min_pixels : Z) :
  Zsum snd (ranked pixels min_pixels) <= opaque_count pixels.
Proof.
  unfold ranked. rewrite (Zsum_perm _ _ _ (sort_desc_perm _)).
  rewrite filtered_spec, Zsum_fmap. simpl.
  eapply Z.le_trans.
  - apply Zsum_occurrences, NoDup_filter, NoDup_distinct.
  - unfold opaque_count, quantized_opaque. rewrite length_fmap. lia.
Qed.

Lemma ranked_count_bounds (pixels : list pixel) (min_pixels : Z) (x : rgb * Z) :
  x ∈ ranked pixels min_pixels ->
  0 <= x.2 <= opaque_count pixels /\ 0 < opaque_count pixels.
Proof.
  destruct x as [q c]. intros Hx.
  apply elem_of_ranked in Hx as (Hq & -> & _). simpl.
  unfold color_count, opaque_count.
  pose proof (occurrences_elem q _ Hq).
  pose proof (occurrences_le_length q (quantized_opaque pixels)) as Hle.
  unfold quantized_opaque in Hle at 2. rewrite length_fmap in Hle. lia.
Qed.

(** ** C2 *)

(** The claim as stated fails: seven opaque pixels of seven different
    quantized colors, [max_colors = 7], [min_pixels = 1].  Each color holds
    1/7 of the pixels, reported as 14.29, and seven times 14.29 is 100.03. *)
Lemma percentage_sum_above_100 :
  image_wf seven_colors /\ 0 < 7 /\ 0 <= 1 /\
  exists palette,
    extract_color_palette seven_colors 7 1 = Ok palette /\
    Forall (fun e => percentage e = Float.fl (1429 # 100)) palette /\
    length palette = 7%nat /\
    ~ (sum_percentages palette <= 100)%Q.
Proof.
  split; [unfold seven_colors; literal_image_wf|].
  split; [lia|]. split; [lia|].
  eexists. split; [vm_compute; reflexivity|].
  split; [repeat constructor|]. split; [reflexivity|].
  vm_compute. intros H. apply H. reflexivity.
Qed.

(** The same with the parameters [main] passes (5 and 100): 100, 100 and 400
    pixels of three colors are reported as 16.67, 16.67 and 66.67. *)
Lemma percentage_sum_above_100_main :
  exists palette,
    extract_color_palette three_colors 5 100 = Ok palette /\
    (pixelCount <$> palette) = [400; 100; 100] /\
    ~ (sum_percentages palette <= 100)%Q.
Proof.
  eexists. split; [vm_compute; reflexivity|]. split; [reflexivity|].
  vm_compute. intros H. apply H. reflexivity.
Qed.

(** C2, amended: every returned percentage lies in [0, 100] and is the count
    divided by the number of opaque pixels, times 100, rounded to two
    decimals; the counts of the returned entries add up to at most the number
    of opaque pixels; and the percentages add up to at most 100 plus, for
    each returned entry, the half hundredth that rounding to two decimals can
    add (and the binary64 roundings, below 2^-45). *)
Theorem percentage_bounds (pixels : list pixel) (max_colors min_pixels : Z) :
  exists palette,
    extract_color_palette pixels max_colors min_pixels = Ok palette /\
    (forall e, e ∈ palette ->
       (0 <= percentage e <= 100)%Q /\
       percentage e =
         Float.round2
           (Float.mul
              (Float.fl (inject_Z (pixelCount e) /
                         inject_Z (opaque_count pixels))) 100)) /\
    sum_counts palette <= opaque_count pixels /\
    (sum_percentages palette <=
       100 + inject_Z (Z.of_nat (length palette)) * ((1 # 200) + 2 ^ (-45)))%Q.
Proof.
  eexists. split; [apply extract_color_palette_ranked|].
  rewrite slice_to_take.
  set (T := opaque_count pixels).
  set (S := take _ (ranked pixels min_pixels)).
  assert (HS : S `sublist_of` ranked pixels min_pixels) by apply sublist_take.
  assert (Hb : forall x, x ∈ S -> 0 <= x.2 <= T /\ 0 < T).
  { intros x Hx. apply (ranked_count_bounds pixels min_pixels).
    eapply elem_of_sublist; eassumption. }
  assert (Hsum : Zsum snd S <= T).
  { eapply Z.le_trans; [|apply (ranked_counts_sum pixels min_pixels)].
    apply Zsum_sublist; [|exact HS].
    intros x Hx. apply (ranked_count_bounds pixels min_pixels x Hx). }
  clearbody S.
  split; [|split].
  - intros e He. apply list_elem_of_fmap in He as (x & -> & Hx).
    destruct (Hb x Hx) as [Hc HT].
    split; [|reflexivity].
    apply (percent_of_bounds x.2 T Hc HT).
  - unfold sum_counts. rewrite Zsum_fmap. exact Hsum.
  - unfold sum_percentages. rewrite Qsum_fmap, length_fmap.
    cbn [percentage entry_of].
    set (d := ((1 # 200) + 2 ^ (-45))%Q).
    destruct S as [|x0 S0] eqn:ES.
    { clearbody d. unfold Qsum. simpl.
      change (inject_Z (Z.of_nat 0)) with 0%Q. lra. }
    destruct (Hb x0) as [_ HT]; [left|].
    assert (HTq : (0 < inject_Z T)%Q)
      by (change 0%Q with (inject_Z 0); rewrite <- Zlt_Qlt; exact HT).
    eapply Qle_trans.
    + apply (Qsum_le _ (fun x => (100 / inject_Z T) * inject_Z x.2 + d)%Q).
      intros x Hx. destruct (Hb x Hx) as [Hc _].
      destruct (percent_of_bounds x.2 T Hc HT) as [_ Hp].
      eapply Qle_trans; [exact Hp|]. apply Qle_lteq. right.
      unfold d. field. lra.
    + rewrite Qsum_affine. apply Qplus_le_l.
      rewrite Zle_Qle in Hsum.
      set (sigma := inject_Z (Zsum snd (x0 :: S0))) in *.
      assert (Hq : (sigma / inject_Z T <= 1)%Q)
        by (apply Qle_shift_div_r; [exact HTq|lra]).
      assert (E : (100 / inject_Z T * sigma == 100 * (sigma / inject_Z T))%Q)
        by (field; lra).
      rewrite E. lra.
Qed.

(** ** The extractor on small images *)

(** Blue, red, blue, green, red: blue and red tie with two pixels each and
    keep the order in which the image shows them; the half-transparent pixel
    is not counted. *)
Example palette_of_five_pixels :
  extract_color_palette
    [(0, 0, 255, 255); (255, 0, 0, 200); (3, 2, 250, 255);
     (0, 255, 0, 255); (250, 5, 0, 128); (9, 9, 9, 127)] 5 1 =
  Ok [ {| color := "#0000FF"; pixelCount := 2; percentage := 40 |};
       {| color := "#FF0000"; pixelCount := 2; percentage := 40 |};
       {| color := "#00FF00"; pixelCount := 1; percentage := 20 |} ].
Proof. vm_compute. reflexivity. Qed.

(** * Further properties *)

(** ** Images with the same buckets *)

Lemma opaque_count_quantized (pixels : list pixel) :
  opaque_count pixels = Z.of_nat (length (quantized_opaque pixels)).
Proof. unfold opaque_count, quantized_opaque. rewrite length_fmap. reflexivity. Qed.

(** The palette is a function of the quantized colors of the opaque pixels,
    taken in pixel order. *)
Lemma palette_depends_on_buckets
    (pixels pixels' : list pixel) (max_colors min_pixels : Z) :
  quantized_opaque pixels = quantized_opaque pixels' ->
  extract_color_palette pixels max_colors min_pixels =
  extract_color_palette pixels' max_colors min_pixels.
Proof.
  intros E. rewrite !extract_color_palette_ranked.
  unfold ranked. rewrite !opaque_count_quantized, E. reflexivity.
Qed.

Lemma quantized_opaque_made_opaque (pixels : list pixel) :
  quantized_opaque ((fun p : pixel => (p.1, 255)) <$> filter is_opaque pixels)
  = quantized_opaque pixels.
Proof.
  induction pixels as [|p t IH]; [reflexivity|].
  rewrite filter_cons, (quantized_opaque_cons p t).
  destruct (decide (is_opaque p)) as [Ho|Ho]; [|exact IH].
  rewrite fmap_cons, quantized_opaque_cons, IH.
  rewrite decide_True by (unfold is_opaque, alpha; simpl; lia).
  destruct p as [[[r g] b] a]. reflexivity.
Qed.

(** X1: the result is that of the image with its transparent pixels removed
    and every other pixel made fully opaque: pixels of alpha 127 or less
    count for nothing (neither as a color nor in the total of the
    percentages), and above 127 the value of alpha plays no part. *)
Theorem transparent_pixels_ignored
    (pixels : list pixel) (max_colors min_pixels : Z) :
  extract_color_palette
    ((fun p : pixel => (p.1, 255)) <$> filter is_opaque pixels)
    max_colors min_pixels =
  extract_color_palette pixels max_colors min_pixels.
Proof. apply palette_depends_on_buckets, quantized_opaque_made_opaque. Qed.

Lemma quantized_channel_idempotent (v : Z) :
  channel v -> quantized_channel (quantized_channel v) = quantized_channel v.
Proof.
  intros Hv. apply Z.eqb_eq. revert v Hv.
  apply (for_all_channels
           (fun v => quantized_channel (quantized_channel v)
                     =? quantized_channel v)).
  vm_compute. reflexivity.
Qed.

Lemma quantized_opaque_requantized (pixels : list pixel) :
  image_wf pixels ->
  quantized_opaque (requantized <$> pixels) = quantized_opaque pixels.
Proof.
  unfold image_wf. induction 1 as [|p t Hp _ IH]; [reflexivity|].
  rewrite fmap_cons, !quantized_opaque_cons, IH.
  assert (Hq : quantized_rgb (requantized p) = quantized_rgb p).
  { destruct p as [[[r g] b] a]. destruct Hp as (Hr & Hg & Hb & _).
    unfold requantized. simpl.
    rewrite !quantized_channel_idempotent by assumption. reflexivity. }
  rewrite Hq.
  destruct (decide (is_opaque p)) as [Ho|Ho];
    [rewrite decide_True|rewrite decide_False]; try reflexivity;
    destruct p as [[[r g] b] a]; exact Ho.
Qed.

(** X2: quantization is idempotent on 8-bit channels, so an image whose
    pixels have been moved to the centres of their buckets gives the palette
    of the original image. *)
Theorem palette_of_requantized
    (pixels : list pixel) (max_colors min_pixels : Z) :
  image_wf pixels ->
  extract_color_palette (requantized <$> pixels) max_colors min_pixels =
  extract_color_palette pixels max_colors min_pixels.
Proof.
  intros Hwf. rewrite !extract_color_palette_ranked.
  unfold ranked.
  rewrite !opaque_count_quantized, (quantized_opaque_requantized _ Hwf).
  reflexivity.
Qed.

Lemma palette_of_requantized_witness :
  image_wf [(200, 10, 5, 255); (7, 8, 250, 130)] /\
  extract_color_palette
    (requantized <$> [(200, 10, 5, 255); (7, 8, 250, 130)]) 5 1 =
  extract_color_palette [(200, 10, 5, 255); (7, 8, 250, 130)] 5 1.
Proof.
  assert (Hwf : image_wf [(200, 10, 5, 255); (7, 8, 250, 130)])
    by literal_image_wf.
  split; [exact Hwf|]. apply (palette_of_requantized _ 5 1 Hwf).
Defined.

(** ** The colors of a palette *)

Lemma NoDup_ranked_keys (pixels : list pixel) (min_pixels : Z) :
  NoDup (ranked pixels min_pixels).*1.
Proof.
  unfold ranked. rewrite sort_desc_perm, filtered_spec.
  rewrite <- list_fmap_compose. simpl. rewrite list_fmap_id.
  apply NoDup_filter, NoDup_distinct.
Qed.

Lemma palette_items (pixels : list pixel) (max_colors min_pixels : Z)
    (palette : list PaletteEntry) :
  extract_color_palette pixels max_colors min_pixels = Ok palette ->
  exists items,
    palette = entry_of (opaque_count pixels) <$> items /\
    items `sublist_of` ranked pixels min_pixels.
Proof.
  rewrite extract_color_palette_ranked, slice_to_take. intros [= <-].
  eexists. split; [reflexivity|apply sublist_take].
Qed.

(** X3: on a well-formed image no color string occurs twice in the
    result. *)
Theorem palette_colors_distinct
    (pixels : list pixel) (max_colors min_pixels : Z)
    (palette : list PaletteEntry) :
  image_wf pixels ->
  extract_color_palette pixels max_colors min_pixels = Ok palette ->
  NoDup (color <$> palette).
Proof.
  intros Hwf Hp. destruct (palette_items _ _ _ _ Hp) as (items & -> & Hs).
  rewrite <- list_fmap_compose.
  assert (Hkeys : NoDup items.*1).
  { eapply sublist_NoDup; [apply (NoDup_ranked_keys pixels min_pixels)|].
    apply fmap_sublist, Hs. }
  assert (Hwfq : forall x, x ∈ items -> rgb_wf x.1).
  { intros [q c] Hx. eapply quantized_opaque_wf; [exact Hwf|].
    apply (elem_of_sublist _ _ _ Hx) in Hs.
    apply elem_of_ranked in Hs as (Hq & _). exact Hq. }
  change (color ∘ entry_of (opaque_count pixels))
    with (hex_color ∘ (fst : rgb * Z -> rgb)).
  rewrite list_fmap_compose.
  apply NoDup_fmap_2_strong; [|exact Hkeys].
  intros q1 q2 H1 H2 E.
  apply list_elem_of_fmap in H1 as (x1 & -> & H1).
  apply list_elem_of_fmap in H2 as (x2 & -> & H2).
  apply hex_color_inj; auto.
Qed.

Lemma palette_colors_distinct_witness :
  image_wf seven_colors /\
  exists palette,
    extract_color_palette seven_colors 7 1 = Ok palette /\
    NoDup (color <$> palette).
Proof.
  assert (Hwf : image_wf seven_colors) by (unfold seven_colors; literal_image_wf).
  split; [exact Hwf|]. eexists. split; [vm_compute; reflexivity|].
  eapply (palette_colors_distinct seven_colors 7 1 _ Hwf).
  vm_compute. reflexivity.
Defined.

(** ** Reading the color strings back *)

Lemma hex_value_digit (d : Z) : 0 <= d < 16 -> hex_value (hex_digit d) = Some d.
Proof.
  intros Hd.
  assert (Hcases : d = 0 \/ d = 1 \/ d = 2 \/ d = 3 \/ d = 4 \/ d = 5 \/
                   d = 6 \/ d = 7 \/ d = 8 \/ d = 9 \/ d = 10 \/ d = 11 \/
                   d = 12 \/ d = 13 \/ d = 14 \/ d = 15) by lia.
  repeat (destruct Hcases as [-> | Hcases]; [reflexivity|]).
  subst d. reflexivity.
Qed.

Lemma parse_byte_format (v : Z) :
  channel v ->
  parse_byte (hex_digit (v / 16)) (hex_digit (v mod 16)) = Some v.
Proof.
  intros [H0 H255]. unfold parse_byte.
  rewrite !hex_value_digit.
  - f_equal. pose proof (Z.div_mod v 16). lia.
  - apply Z.mod_pos_bound. lia.
  - split; [apply Z.div_pos; lia|apply Z.div_lt_upper_bound; lia].
Qed.

Lemma parse_hex_color_format (c : rgb) :
  rgb_wf c -> parse_hex_color (hex_color c) = Some c.
Proof.
  destruct c as [[r g] b]. intros (Hr & Hg & Hb). unfold hex_color.
  rewrite !format_02X_digits by assumption.
  simpl.
  rewrite !parse_byte_format by assumption. reflexivity.
Qed.

Lemma quantized_rgb_on_grid (p : pixel) : pixel_wf p -> on_grid (quantized_rgb p).
Proof.
  destruct p as [[[r g] b] a]. intros (Hr & Hg & Hb & _). simpl.
  rewrite !quantized_channel_nearest by assumption.
  unfold nearest_multiple_15. repeat split; apply Z.divide_factor_l.
Qed.

(** X4: on a well-formed image every returned color string reads back, as
    [#RRGGBB] in upper-case hexadecimal, to a color with 8-bit channels that
    are multiples of 15, and the entry's pixelCount is the number of opaque
    pixels quantized to that color, which is at least 1. *)
Theorem palette_color_parses
    (pixels : list pixel) (max_colors min_pixels : Z)
    (palette : list PaletteEntry) (e : PaletteEntry) :
  image_wf pixels ->
  extract_color_palette pixels max_colors min_pixels = Ok palette ->
  e ∈ palette ->
  exists q,
    parse_hex_color (color e) = Some q /\
    rgb_wf q /\ on_grid q /\
    pixelCount e = color_count q pixels /\ 1 <= pixelCount e.
Proof.
  intros Hwf Hp He.
  destruct (elem_of_palette _ _ _ _ _ Hp He) as (q & Hq & _ & ->).
  exists q. simpl.
  assert (Hq' := Hq). unfold quantized_opaque in Hq'.
  apply list_elem_of_fmap in Hq' as (p & -> & Hp').
  apply list_elem_of_filter in Hp' as [_ Hp'].
  unfold image_wf in Hwf. rewrite Forall_forall in Hwf.
  pose proof (Hwf p Hp') as Hpwf.
  split; [apply parse_hex_color_format, quantized_rgb_wf, Hpwf|].
  split; [apply quantized_rgb_wf, Hpwf|].
  split; [apply quantized_rgb_on_grid, Hpwf|].
  split; [reflexivity|]. apply occurrences_elem, Hq.
Qed.

Lemma palette_color_parses_witness :
  image_wf [(200, 10, 5, 255)] /\
  exists q, parse_hex_color "#C30F00" = Some q /\ on_grid q.
Proof.
  assert (Hwf : image_wf [(200, 10, 5, 255)]) by literal_image_wf.
  split; [exact Hwf|].
  destruct (palette_color_parses [(200, 10, 5, 255)] 5 1
              [ {| color := "#C30F00"; pixelCount := 1; percentage := 100 |} ]
              {| color := "#C30F00"; pixelCount := 1; percentage := 100 |}
              Hwf) as (q & Hq & _ & Hg & _).
  - vm_compute. reflexivity.
  - left.
  - exists q. split; [exact Hq|exact Hg].
Defined.

(** ** Truncation *)

(** X5: for [0 <= m <= m'] the result with [max_colors = m] is the first
    [m] entries of the result with [max_colors = m']. *)
Theorem palette_prefix_in_max_colors
    (pixels : list pixel) (m m' min_pixels : Z)
    (palette palette' : list PaletteEntry) :
  0 <= m <= m' ->
  extract_color_palette pixels m min_pixels = Ok palette ->
  extract_color_palette pixels m' min_pixels = Ok palette' ->
  palette = take (Z.to_nat m) palette'.
Proof.
  intros Hm. rewrite !extract_color_palette_ranked, !slice_to_nonneg by lia.
  intros [= <-] [= <-].
  rewrite <- fmap_take, take_take. do 2 f_equal. lia.
Qed.

Lemma palette_prefix_in_max_colors_witness :
  0 <= 2 <= 5 /\
  exists palette palette',
    extract_color_palette seven_colors 2 1 = Ok palette /\
    extract_color_palette seven_colors 5 1 = Ok palette' /\
    palette = take 2 palette'.
Proof.
  split; [lia|]. eexists. eexists.
  split; [vm_compute; reflexivity|]. split; [vm_compute; reflexivity|].
  apply (palette_prefix_in_max_colors seven_colors 2 5 1); [lia|..];
    vm_compute; reflexivity.
Defined.

(** X6: a negative [max_colors] raises nothing: the slice drops that many
    entries from the end of the full ranking (the least frequent colors), and
    leaves nothing when there are not more than that. *)
Theorem palette_negative_max_colors
    (pixels : list pixel) (max_colors min_pixels : Z) :
  max_colors < 0 ->
  exists palette full,
    extract_color_palette pixels max_colors min_pixels = Ok palette /\
    extract_color_palette pixels
      (Z.of_nat (size (qualifying pixels min_pixels))) min_pixels = Ok full /\
    length full = size (qualifying pixels min_pixels) /\
    palette = take (length full - Z.to_nat (- max_colors)) full.
Proof.
  intros Hneg. eexists. eexists.
  split; [apply extract_color_palette_ranked|].
  split; [apply palette_untruncated; lia|].
  split; [rewrite length_fmap; apply length_ranked|].
  rewrite slice_to_take, length_fmap, <- fmap_take.
  destruct (Z.ltb_spec max_colors 0) as [_|]; [|lia].
  do 2 f_equal. lia.
Qed.

Lemma palette_negative_max_colors_witness :
  -2 < 0 /\
  exists palette,
    extract_color_palette seven_colors (-2) 1 = Ok palette /\
    length palette = 5%nat.
Proof.
  split; [lia|].
  destruct (palette_negative_max_colors seven_colors (-2) 1 ltac:(lia))
    as (palette & full & Hp & Hf & Hl & ->).
  eexists. split; [exact Hp|].
  rewrite length_take, Hl. vm_compute. reflexivity.
Defined.

(** ** Counts that add up *)

Section CountTotals.
Context {K : Type} `{EqDecision K}.
Implicit Types (l L : list K).




End CountTotals.




(** ** Percentages follow the counts *)

Section PercentOrder.
Local Open Scope Q_scope.

Lemma inject_Z_nonneg (z : Z) : (0 <= z)%Z -> 0 <= inject_Z z.
Proof. intros H. change 0 with (inject_Z 0). rewrite <- Zle_Qle. exact H. Qed.

Lemma inject_Z_pos (z : Z) : (0 < z)%Z -> 0 < inject_Z z.
Proof. intros H. change 0 with (inject_Z 0). rewrite <- Zlt_Qlt. exact H. Qed.

(** A larger count never gets a smaller percentage. *)
Lemma percent_of_mono (c c' T : Z) :
  (0 <= c <= c')%Z -> (0 < T)%Z -> percent_of c T <= percent_of c' T.
Proof.
  intros Hc HT. pose proof (inject_Z_pos T HT) as HTq.
  pose proof (inject_Z_nonneg c ltac:(lia)) as Hcq.
  assert (Hcc : inject_Z c <= inject_Z c') by (rewrite <- Zle_Qle; lia).
  assert (Hs0 : 0 <= inject_Z c / inject_Z T)
    by (apply Qle_shift_div_l; [exact HTq|lra]).
  assert (Hs : inject_Z c / inject_Z T <= inject_Z c' / inject_Z T).
  { apply Qmult_le_compat_r; [exact Hcc|].
    apply Qlt_le_weak, Qinv_lt_0_compat, HTq. }
  pose proof (fl_nonneg _ Hs0) as Hv0. pose proof (fl_mono _ _ Hs0 Hs) as Hv.
  set (v := Float.fl (inject_Z c / inject_Z T)) in *.
  set (v' := Float.fl (inject_Z c' / inject_Z T)) in *.
  unfold percent_of, Float.round2, Float.mul. fold v v'.
  change (inject_Z 100) with 100.
  assert (Hw0 : 0 <= Float.fl (v * 100)) by (apply fl_nonneg; lra).
  assert (Hw : Float.fl (v * 100) <= Float.fl (v' * 100))
    by (apply fl_mono; lra).
  set (w := Float.fl (v * 100)) in *. set (w' := Float.fl (v' * 100)) in *.
  assert (Hk0 : (0 <= Float.rne (w * 100))%Z).
  { rewrite <- (rne_Z 0). apply rne_mono. change (inject_Z 0) with 0. lra. }
  assert (Hk : (Float.rne (w * 100) <= Float.rne (w' * 100))%Z)
    by (apply rne_mono; lra).
  set (k := Float.rne (w * 100)) in *. set (k' := Float.rne (w' * 100)) in *.
  pose proof (inject_Z_nonneg k Hk0) as Hkq.
  assert (Hkk : inject_Z k <= inject_Z k') by (rewrite <- Zle_Qle; exact Hk).
  assert (E : forall z, inject_Z z / 100 == inject_Z z * (1 # 100))
    by (intros z; field).
  apply fl_mono; rewrite ?E; lra.
Qed.

End PercentOrder.

(** X9: the percentages of the result are in descending order as well: a
    later entry never has a larger percentage than an earlier one. *)
Theorem palette_percentages_descending
    (pixels : list pixel) (max_colors min_pixels : Z)
    (palette : list PaletteEntry) (i j : nat) (e1 e2 : PaletteEntry) :
  extract_color_palette pixels max_colors min_pixels = Ok palette ->
  (i < j)%nat -> palette !! i = Some e1 -> palette !! j = Some e2 ->
  (percentage e2 <= percentage e1)%Q.
Proof.
  rewrite extract_color_palette_ranked, slice_to_take. intros [= <-] Hij H1 H2.
  apply list_lookup_fmap_Some in H1 as (x1 & -> & H1).
  apply list_lookup_fmap_Some in H2 as (x2 & -> & H2).
  apply lookup_take_Some in H1 as [H1 _].
  apply lookup_take_Some in H2 as [H2 _].
  pose proof (StronglySorted_lookup_lt _ _ i j x1 x2
                (ranked_sorted pixels min_pixels) Hij H1 H2) as Hd.
  unfold count_desc in Hd.
  apply list_elem_of_lookup_2 in H1, H2.
  destruct (ranked_count_bounds _ _ _ H2) as [[H0 _] HT].
  simpl. apply percent_of_mono; [lia|exact HT].
Qed.

Lemma palette_percentages_descending_witness :
  exists palette e1 e2,
    extract_color_palette three_colors 5 100 = Ok palette /\
    (0 < 2)%nat /\ palette !! 0%nat = Some e1 /\ palette !! 2%nat = Some e2 /\
    (percentage e2 <= percentage e1)%Q.
Proof.
  assert (Hp : exists palette,
             extract_color_palette three_colors 5 100 = Ok palette /\
             is_Some (palette !! 0%nat) /\ is_Some (palette !! 2%nat)).
  { eexists. split; [vm_compute; reflexivity|]. split; eexists; reflexivity. }
  destruct Hp as (palette & Hp & [e1 H1] & [e2 H2]).
  exists palette, e1, e2. repeat (split; [assumption || lia|]).
  apply (palette_percentages_descending three_colors 5 100 palette 0 2 e1 e2
           Hp ltac:(lia) H1 H2).
Defined.

(** ** An image of one color *)

Lemma percent_of_all (T : Z) : 0 < T -> percent_of T T = 100%Q.
Proof.
  intros HT. unfold percent_of.
  assert (E : (inject_Z T / inject_Z T == 1)%Q).
  { field. pose proof (inject_Z_pos T HT). lra. }
  rewrite (fl_comp _ 1); [vm_compute; reflexivity| |exact E].
  rewrite E. discriminate.
Qed.

Lemma quantized_opaque_one_color (pixels : list pixel) (q : rgb) :
  (forall p, p ∈ pixels -> is_opaque p -> quantized_rgb p = q) ->
  quantized_opaque pixels =
  replicate (length (filter is_opaque pixels)) q.
Proof.
  induction pixels as [|p t IH]; intros Hq; [reflexivity|].
  rewrite quantized_opaque_cons, filter_cons.
  rewrite IH by (intros p' Hp'; apply Hq; right; exact Hp').
  destruct (decide (is_opaque p)) as [Ho|Ho]; [|reflexivity].
  simpl. rewrite (Hq p) by (left || exact Ho). reflexivity.
Qed.

Lemma Counter_replicate {K} `{EqDecision K} (n : nat) (k : K) :
  Counter (replicate (S n) k) = [(k, Z.of_nat (S n))].
Proof.
  induction n as [|n IH]; [reflexivity|].
  change (replicate (S (S n)) k) with (k :: replicate (S n) k).
  rewrite (replicate_cons_app (S n)), Counter_snoc, IH.
  simpl. rewrite decide_True by reflexivity. do 2 f_equal. lia.
Qed.

(** X10: when all opaque pixels fall into one bucket, and there is at least
    one, the result (for [max_colors >= 1] and a threshold that the pixels
    meet) is the single entry of that color, with all opaque pixels as its
    count and exactly 100.0 as its percentage. *)
Theorem single_color_palette
    (pixels : list pixel) (max_colors min_pixels : Z) (q : rgb) :
  (exists p, p ∈ pixels /\ is_opaque p) ->
  (forall p, p ∈ pixels -> is_opaque p -> quantized_rgb p = q) ->
  1 <= max_colors -> min_pixels <= opaque_count pixels ->
  extract_color_palette pixels max_colors min_pixels =
  Ok [ {| color := hex_color q; pixelCount := opaque_count pixels;
          percentage := 100 |} ].
Proof.
  intros (p0 & Hp0 & Ho0) Hq Hmax Hmin.
  rewrite extract_color_palette_ranked, slice_to_nonneg by lia.
  assert (Hlen : exists n, length (filter is_opaque pixels) = S n).
  { destruct (filter is_opaque pixels) as [|x t] eqn:E; [|simpl; eauto].
    assert (Hin : p0 ∈ filter is_opaque pixels)
      by (apply list_elem_of_filter; auto).
    rewrite E in Hin. apply elem_of_nil in Hin. contradiction. }
  destruct Hlen as [n Hn].
  assert (HT : opaque_count pixels = Z.of_nat (S n))
    by (unfold opaque_count; rewrite Hn; reflexivity).
  unfold ranked. rewrite (quantized_opaque_one_color pixels q Hq), Hn.
  rewrite Counter_replicate, filter_cons_True, filter_nil by (simpl; lia).
  cbn [sort_desc insert_desc].
  destruct (Z.to_nat max_colors) as [|m] eqn:Em; [lia|].
  cbn [take]. rewrite take_nil, fmap_cons. cbn [fmap list_fmap].
  unfold entry_of. cbn [fst snd]. rewrite <- HT.
  rewrite percent_of_all by lia. reflexivity.
Qed.

Lemma single_color_palette_witness :
  (exists p, p ∈ [(250, 3, 4, 255); (255, 0, 0, 128); (0, 0, 0, 0)] /\
             is_opaque p) /\
  extract_color_palette [(250, 3, 4, 255); (255, 0, 0, 128); (0, 0, 0, 0)]
    5 2 =
  Ok [ {| color := "#FF0000"; pixelCount := 2; percentage := 100 |} ].
Proof.
  assert (Hex : exists p,
             p ∈ [(250, 3, 4, 255); (255, 0, 0, 128); (0, 0, 0, 0)] /\
             is_opaque p).
  { exists (250, 3, 4, 255). split; [left|]. unfold is_opaque, alpha. simpl. lia. }
  split; [exact Hex|].
  apply (single_color_palette _ 5 2 (255, 0, 0) Hex); [|lia|vm_compute; discriminate].
  intros p Hp Ho.
  repeat (apply elem_of_cons in Hp as [->|Hp]; [try (vm_compute; reflexivity)|]).
  - exfalso. unfold is_opaque, alpha in Ho. simpl in Ho. lia.
  - apply elem_of_nil in Hp. contradiction.
Defined.

(** ** Reordering the pixels *)

Lemma occurrences_perm {K} `{EqDecision K} (k : K) (l l' : list K) :
  l ≡ₚ l' -> occurrences k l = occurrences k l'.
Proof. induction 1; simpl; lia. Qed.

Lemma distinct_perm {K} `{EqDecision K} (l l' : list K) :
  l ≡ₚ l' -> distinct l ≡ₚ distinct l'.
Proof.
  intros E. apply NoDup_Permutation; [apply NoDup_distinct..|].
  intros x. rewrite !elem_of_distinct, E. reflexivity.
Qed.

Lemma quantized_opaque_perm (pixels pixels' : list pixel) :
  pixels ≡ₚ pixels' -> quantized_opaque pixels ≡ₚ quantized_opaque pixels'.
Proof. intros E. unfold quantized_opaque. rewrite E. reflexivity. Qed.

Lemma ranked_perm (pixels pixels' : list pixel) (min_pixels : Z) :
  pixels ≡ₚ pixels' -> ranked pixels min_pixels ≡ₚ ranked pixels' min_pixels.
Proof.
  intros E. pose proof (quantized_opaque_perm _ _ E) as Eq.
  unfold ranked. rewrite !sort_desc_perm, !Counter_spec.
  rewrite (distinct_perm _ _ Eq).
  erewrite list_fmap_ext; [reflexivity|].
  intros i q _. simpl. f_equal. apply occurrences_perm, Eq.
Qed.

Global Instance Zge_antisym : AntiSymm (=) (fun a b : Z => b <= a).
Proof. intros a b H1 H2. lia. Qed.

Lemma ranked_counts_perm (pixels pixels' : list pixel) (min_pixels : Z) :
  pixels ≡ₚ pixels' ->
  (ranked pixels min_pixels).*2 = (ranked pixels' min_pixels).*2.
Proof.
  intros E.
  apply (StronglySorted_unique (fun a b : Z => b <= a)).
  - apply (StronglySorted_fmap _ count_desc); [auto|apply ranked_sorted].
  - apply (StronglySorted_fmap _ count_desc); [auto|apply ranked_sorted].
  - rewrite (ranked_perm _ _ _ E). reflexivity.
Qed.

(** X8: reordering the pixels changes neither the sequence of pixelCounts
    nor the sequence of percentages of the result; the order of the pixels
    only decides which color comes first among equal counts. *)
Theorem palette_counts_under_reordering
    (pixels pixels' : list pixel) (max_colors min_pixels : Z) :
  pixels ≡ₚ pixels' ->
  exists palette palette',
    extract_color_palette pixels max_colors min_pixels = Ok palette /\
    extract_color_palette pixels' max_colors min_pixels = Ok palette' /\
    pixelCount <$> palette = pixelCount <$> palette' /\
    percentage <$> palette = percentage <$> palette'.
Proof.
  intros E. eexists. eexists.
  split; [apply extract_color_palette_ranked|].
  split; [apply extract_color_palette_ranked|].
  rewrite !slice_to_take.
  assert (HT : opaque_count pixels = opaque_count pixels')
    by (unfold opaque_count; rewrite E; reflexivity).
  assert (Hlen : length (ranked pixels min_pixels) =
                 length (ranked pixels' min_pixels))
    by (rewrite (ranked_perm _ _ _ E); reflexivity).
  pose proof (ranked_counts_perm _ _ min_pixels E) as Hc.
  rewrite <- HT, <- Hlen.
  set (n := Z.to_nat _).
  rewrite <- !list_fmap_compose.
  change (pixelCount ∘ entry_of (opaque_count pixels))
    with (snd : rgb * Z -> Z).
  change (percentage ∘ entry_of (opaque_count pixels))
    with ((fun c => percent_of c (opaque_count pixels)) ∘ (snd : rgb * Z -> Z)).
  rewrite !list_fmap_compose, !fmap_take, Hc. split; reflexivity.
Qed.

Lemma palette_counts_under_reordering_witness :
  [(0, 0, 0, 255); (255, 0, 0, 255); (255, 0, 0, 255)] ≡ₚ
  [(255, 0, 0, 255); (0, 0, 0, 255); (255, 0, 0, 255)] /\
  exists palette palette',
    extract_color_palette
      [(0, 0, 0, 255); (255, 0, 0, 255); (255, 0, 0, 255)] 5 1 = Ok palette /\
    extract_color_palette
      [(255, 0, 0, 255); (0, 0, 0, 255); (255, 0, 0, 255)] 5 1 = Ok palette' /\
    pixelCount <$> palette = pixelCount <$> palette'.
Proof.
  assert (E : [(0, 0, 0, 255); (255, 0, 0, 255); (255, 0, 0, 255)] ≡ₚ
              [(255, 0, 0, 255); (0, 0, 0, 255); (255, 0, 0, 255)])
    by apply Permutation_swap.
  split; [exact E|].
  destruct (palette_counts_under_reordering _ _ 5 1 E)
    as (palette & palette' & H1 & H2 & Hc & _).
  exists palette, palette'. auto.
Defined.

(** ** Raising the threshold *)

Section ThresholdPrefix.
Context {K : Type}.
Implicit Types (x y : K * Z) (l : list (K * Z)).

(** In a descending list, once an item misses the threshold all later ones
    do. *)
Lemma filter_threshold_below (m : Z) y l :
  StronglySorted count_desc (y :: l) -> ~ m <= y.2 ->
  filter (fun x => m <= x.2) (y :: l) = [].
Proof.
  intros Hs Hy. apply StronglySorted_cons in Hs as [Hall _].
  rewrite filter_cons_False by exact Hy.
  induction l as [|z t IH]; [reflexivity|].
  apply Forall_cons in Hall as [Hz Hall]. unfold count_desc in Hz.
  rewrite filter_cons_False by lia. apply IH, Hall.
Qed.

Lemma filter_threshold_insert (m : Z) x l :
  StronglySorted count_desc l ->
  filter (fun y => m <= y.2) (insert_desc x l) =
  if decide (m <= x.2) then insert_desc x (filter (fun y => m <= y.2) l)
  else filter (fun y => m <= y.2) l.
Proof.
  induction 1 as [|y t Hs IH Hy]; simpl.
  - rewrite filter_cons, filter_nil. case_decide; reflexivity.
  - assert (Hyt : StronglySorted count_desc (y :: t)) by (constructor; assumption).
    destruct (decide (y.2 <= x.2)) as [Hyx|Hyx].
    + rewrite (filter_cons _ x). destruct (decide (m <= x.2)) as [Hx|Hx];
        [|reflexivity].
      destruct (decide (m <= y.2)) as [Hmy|Hmy].
      * rewrite (filter_cons_True _ y) by exact Hmy. simpl.
        rewrite decide_True by exact Hyx. reflexivity.
      * rewrite (filter_threshold_below m y t Hyt Hmy). reflexivity.
    + rewrite !(filter_cons _ y), IH.
      destruct (decide (m <= y.2)) as [Hmy|Hmy].
      * destruct (decide (m <= x.2)) as [Hx|Hx]; [|reflexivity].
        simpl. rewrite decide_False by exact Hyx. reflexivity.
      * rewrite decide_False by lia. reflexivity.
Qed.

Lemma filter_threshold_sort (m : Z) l :
  filter (fun y => m <= y.2) (sort_desc l) =
  sort_desc (filter (fun y => m <= y.2) l).
Proof.
  induction l as [|x t IH]; [reflexivity|].
  cbn [sort_desc]. rewrite filter_threshold_insert by apply sort_desc_sorted.
  rewrite filter_cons, IH. case_decide; reflexivity.
Qed.

Lemma filter_threshold_prefix (m : Z) l :
  StronglySorted count_desc l ->
  filter (fun y => m <= y.2) l =
  take (length (filter (fun y => m <= y.2) l)) l.
Proof.
  induction 1 as [|y t Hs IH Hy]; [reflexivity|].
  destruct (decide (m <= y.2)) as [Hmy|Hmy].
  - rewrite filter_cons_True by exact Hmy. simpl. f_equal. exact IH.
  - assert (Hyt : StronglySorted count_desc (y :: t))
      by (constructor; assumption).
    rewrite (filter_threshold_below m y t Hyt Hmy). reflexivity.
Qed.

End ThresholdPrefix.

Lemma ranked_raise_threshold (pixels : list pixel) (m m' : Z) :
  m <= m' ->
  ranked pixels m' =
  take (length (ranked pixels m')) (ranked pixels m).
Proof.
  intros Hm.
  assert (E : ranked pixels m' =
              filter (fun y : rgb * Z => m' <= y.2) (ranked pixels m)).
  { unfold ranked. rewrite filter_threshold_sort. f_equal.
    rewrite list_filter_filter. apply list_filter_iff. intros x. lia. }
  rewrite E at 2. rewrite E at 1.
  apply filter_threshold_prefix, ranked_sorted.
Qed.

(** X11: raising [min_pixels] only cuts the tail: for [m <= m'] and
    [max_colors >= 0] the result with threshold [m'] is a prefix of the
    result with threshold [m], as long as the number of colors that meet
    [m']. *)
Theorem palette_prefix_in_min_pixels
    (pixels : list pixel) (max_colors m m' : Z)
    (palette palette' : list PaletteEntry) :
  m <= m' -> 0 <= max_colors ->
  extract_color_palette pixels max_colors m = Ok palette ->
  extract_color_palette pixels max_colors m' = Ok palette' ->
  palette' = take (size (qualifying pixels m')) palette.
Proof.
  intros Hm Hmax.
  rewrite !extract_color_palette_ranked, !slice_to_nonneg by exact Hmax.
  intros [= <-] [= <-].
  rewrite <- fmap_take. f_equal.
  rewrite (ranked_raise_threshold pixels m m' Hm) at 1.
  rewrite length_ranked, !take_take. f_equal. lia.
Qed.

Lemma palette_prefix_in_min_pixels_witness :
  100 <= 101 /\ 0 <= 5 /\
  exists palette palette',
    extract_color_palette three_colors 5 100 = Ok palette /\
    extract_color_palette three_colors 5 101 = Ok palette' /\
    palette' = take 1 palette.
Proof.
  split; [lia|]. split; [lia|]. eexists. eexists.
  split; [vm_compute; reflexivity|]. split; [vm_compute; reflexivity|].
  apply (palette_prefix_in_min_pixels three_colors 5 100 101);
    [lia|lia|vm_compute; reflexivity..].
Defined.

(** ** The search for the embedded payload *)

Lemma strip_prefix_spec (p s r : string) :
  strip_prefix p s = Some r <-> s = p +:+ r.
Proof.
  revert s. induction p as [|a p IH]; intros s; simpl.
  - split; [intros [= ->]; reflexivity|intros ->; reflexivity].
  - destruct s as [|b s]; [split; discriminate|].
    destruct (Ascii.eqb_spec a b) as [->|Hne].
    + rewrite IH. split; [intros ->; reflexivity|intros [= ->]; reflexivity].
    + split; [discriminate|intros [= E _]; congruence].
Qed.

Lemma span_unquoted_spec (s : string) :
  s = (span_unquoted s).1 +:+ (span_unquoted s).2 /\
  unquoted (span_unquoted s).1 /\
  ((span_unquoted s).2 = EmptyString \/
   exists rest, (span_unquoted s).2 = String double_quote rest).
Proof.
  induction s as [|c s (IH1 & IH2 & IH3)]; simpl.
  - auto.
  - destruct (Ascii.eqb_spec c double_quote) as [->|Hne]; simpl.
    + eauto.
    + destruct (span_unquoted s) as [run rest]. simpl in *.
      split; [rewrite IH1 at 1; reflexivity|]. auto.
Qed.

Lemma span_unquoted_app (g post : string) :
  unquoted g ->
  span_unquoted (g +:+ String double_quote post) =
  (g, String double_quote post).
Proof.
  induction g as [|c g IH]; simpl.
  - intros _. reflexivity.
  - intros [Hc Hg]. destruct (Ascii.eqb_spec c double_quote) as [E|_];
      [contradiction|].
    rewrite (IH Hg). reflexivity.
Qed.

Lemma match_here_sound (s g : string) :
  match_here s = Some g ->
  exists post,
    s = href_prefix +:+ g +:+ String double_quote post /\
    g <> EmptyString /\ unquoted g.
Proof.
  unfold match_here.
  destruct (strip_prefix href_prefix s) as [after|] eqn:Ep; [|discriminate].
  apply strip_prefix_spec in Ep.
  destruct (span_unquoted_spec after) as (E & Hu & Hr).
  destruct (span_unquoted after) as [[|c run] [|d rest]]; try discriminate.
  intros [= <-]. simpl in *.
  destruct Hr as [Hr|[rest' [= -> ->]]]; [discriminate|].
  exists rest'. rewrite Ep, E.
  split; [reflexivity|]. split; [discriminate|exact Hu].
Qed.

Lemma match_here_complete (g post : string) :
  g <> EmptyString -> unquoted g ->
  match_here (href_prefix +:+ g +:+ String double_quote post) = Some g.
Proof.
  intros Hne Hu. unfold match_here.
  rewrite (proj2 (strip_prefix_spec href_prefix _ _) eq_refl).
  rewrite (span_unquoted_app g post Hu).
  destruct g; [contradiction|reflexivity].
Qed.

Lemma re_search_png_sound (s g : string) :
  re_search_png s = Some g -> has_payload s g.
Proof.
  induction s as [|c s IH].
  - simpl. discriminate.
  - cbn [re_search_png].
    destruct (match_here (String c s)) eqn:E.
    + intros [= ->]. apply match_here_sound in E as (post & E & Hne & Hu).
      exists EmptyString, post. auto.
    + intros Hs. destruct (IH Hs) as (pre & post & -> & Hne & Hu).
      exists (String c pre), post. auto.
Qed.

Lemma re_search_png_here (s g : string) :
  match_here s = Some g -> re_search_png s = Some g.
Proof.
  intros E. destruct s as [|c s]; cbn [re_search_png]; rewrite E; reflexivity.
Qed.

Lemma re_search_png_complete (s g : string) :
  has_payload s g -> exists g', re_search_png s = Some g'.
Proof.
  intros (pre & post & -> & Hne & Hu).
  induction pre as [|c pre IH].
  - change (EmptyString +:+ ?x) with x.
    exists g. apply re_search_png_here, match_here_complete; assumption.
  - change (String c pre +:+ ?x) with (String c (pre +:+ x)).
    cbn [re_search_png]. destruct (match_here _); eauto.
Qed.

(** The payload found is the one that starts first. *)
Lemma re_search_png_leftmost (s g : string) :
  re_search_png s = Some g ->
  exists pre post,
    s = pre +:+ href_prefix +:+ g +:+ String double_quote post /\
    forall pre' g' post',
      s = pre' +:+ href_prefix +:+ g' +:+ String double_quote post' ->
      g' <> EmptyString -> unquoted g' ->
      (String.length pre <= String.length pre')%nat.
Proof.
  induction s as [|c s IH].
  - simpl. discriminate.
  - cbn [re_search_png]. destruct (match_here (String c s)) eqn:E.
    + intros [= ->]. apply match_here_sound in E as (post & E & _ & _).
      exists EmptyString, post. split; [exact E|]. intros. simpl. lia.
    + intros Hs. destruct (IH Hs) as (pre & post & Es & Hleft).
      exists (String c pre), post. split; [rewrite Es at 1; reflexivity|].
      intros pre' g' post' E' Hne' Hu'. destruct pre' as [|c' pre''].
      * change (EmptyString +:+ ?x) with x in E'.
        rewrite E', match_here_complete in E by assumption.
        discriminate.
      * change (String c' pre'' +:+ ?x) with (String c' (pre'' +:+ x)) in E'.
        injection E' as _ E'.
        pose proof (Hleft pre'' g' post' E' Hne' Hu'). simpl. lia.
Qed.

(** X12: the search returns a group exactly when the text holds an embedded
    payload (the prefix, a non-empty run without double quote, a double
    quote); the group returned is such a payload, and no payload starts
    before it. *)
Theorem re_search_png_spec (svg_content : string) :
  (forall g, re_search_png svg_content = Some g ->
     has_payload svg_content g /\
     exists pre post,
       svg_content = pre +:+ href_prefix +:+ g +:+ String double_quote post /\
       forall pre' g' post',
         svg_content =
           pre' +:+ href_prefix +:+ g' +:+ String double_quote post' ->
         g' <> EmptyString -> unquoted g' ->
         (String.length pre <= String.length pre')%nat)
  /\ (re_search_png svg_content = None <->
      forall g, ~ has_payload svg_content g).
Proof.
  split.
  - intros g Hg. split; [apply re_search_png_sound, Hg|].
    apply re_search_png_leftmost, Hg.
  - split.
    + intros Hn g Hp. destruct (re_search_png_complete _ _ Hp) as [g' E].
      congruence.
    + intros Hn. destruct (re_search_png svg_content) as [g|] eqn:E;
        [|reflexivity].
      exfalso. exact (Hn g (re_search_png_sound _ _ E)).
Qed.

Section ExtractPng.
Context {Path Bytes : Type}.
Variable path_str : Path -> string.
Variable read_text : Path -> result string.
Variable b64decode : string -> result Bytes.

(** X13: [extract_png_from_svg] passes on what reading the file raises;
    when the text holds no embedded payload it raises [ValueError] with the
    message that names the path; otherwise it returns what [b64decode]
    returns on a payload of the text. *)
Theorem extract_png_from_svg_cases (svg_path : Path) :
  (forall e, read_text svg_path = Raise e ->
     extract_png_from_svg path_str read_text b64decode svg_path = Raise e)
  /\ (forall svg_content,
        read_text svg_path = Ok svg_content ->
        (forall g, ~ has_payload svg_content g) ->
        extract_png_from_svg path_str read_text b64decode svg_path =
        Raise (ValueError ("No PNG data found in " +:+ path_str svg_path)))
  /\ (forall svg_content g,
        read_text svg_path = Ok svg_content ->
        has_payload svg_content g ->
        exists g',
          has_payload svg_content g' /\
          extract_png_from_svg path_str read_text b64decode svg_path =
          b64decode g').
Proof.
  unfold extract_png_from_svg. split; [|split].
  - intros e ->. reflexivity.
  - intros svg_content -> Hn. simpl.
    destruct (re_search_png svg_content) as [g|] eqn:E; [|reflexivity].
    exfalso. exact (Hn g (re_search_png_sound _ _ E)).
  - intros svg_content g -> Hp. simpl.
    destruct (re_search_png_complete _ _ Hp) as [g' E].
    exists g'. rewrite E. split; [apply re_search_png_sound, E|reflexivity].
Qed.

End ExtractPng.

(** ** More on the batch loop *)

Section MainExtras.
Context {Path Bytes Image : Type}.
Variable stem : Path -> string.
Variable path_str : Path -> string.
Variable read_text : Path -> result string.
Variable b64decode : string -> result Bytes.
Variable Image_open : Bytes -> result Image.
Variable rgba_data : Image -> result (list pixel).
Variable print : console_line -> result unit.

Local Abbreviation process :=
  (process_asset path_str read_text b64decode Image_open rgba_data).
Local Abbreviation step :=
  (main_step stem path_str read_text b64decode Image_open rgba_data print).
Local Abbreviation loop :=
  (main_loop stem path_str read_text b64decode Image_open rgba_data print).
Local Abbreviation run :=
  (main_run stem path_str read_text b64decode Image_open rgba_data print).
Local Abbreviation returns :=
  (loop_returns stem path_str read_text b64decode Image_open rgba_data print).
Local Abbreviation items :=
  (main_items stem path_str read_text b64decode Image_open rgba_data print).
Local Abbreviation the_report :=
  (report stem path_str read_text b64decode Image_open rgba_data print).
Local Abbreviation the_console :=
  (main_console stem path_str read_text b64decode Image_open rgba_data print).
Local Abbreviation value :=
  (assigned stem path_str read_text b64decode Image_open rgba_data print).
Local Abbreviation the_processed :=
  (processed stem path_str read_text b64decode Image_open rgba_data print).

(** The loop over the assets that reached the assignment ends as the loop
    over all of them, with the same [output]. *)
Lemma processed_run (l : list Path) :
  returns l -> returns (the_processed l) /\ items l = items (the_processed l).
Proof.
  induction l as [|p l IH] using rev_ind; intros Hret;
    [split; [exact I|reflexivity]|].
  apply returns_snoc in Hret as [Hret Hstep].
  destruct (IH Hret) as [Hret' Hitems].
  rewrite processed_snoc, (items_snoc _ _ _ _ _ _ _ _ _ Hret).
  destruct (value p) as [r|e] eqn:Ev.
  - rewrite decide_True by exact I. split.
    + apply returns_snoc. split; [exact Hret'|].
      rewrite (main_step_result _ _ _ _ _ _ _ p _ (run l).1). exact Hstep.
    + rewrite (items_snoc _ _ _ _ _ _ _ _ _ Hret'), Ev, Hitems. reflexivity.
  - rewrite decide_False by (intros []). rewrite app_nil_r. auto.
Qed.

(** X14: when no exception leaves the loop, none leaves the loop over the
    assets that reached the assignment alone, and the two leave the same
    [output], items and order, hence the same report: the other assets leave
    no trace in it, wherever they stand in the batch. *)
Theorem report_ignores_failures (svg_files : list Path) :
  loop_returns stem path_str read_text b64decode Image_open rgba_data print
    svg_files ->
  let done :=
    processed stem path_str read_text b64decode Image_open rgba_data print
      svg_files in
  loop_returns stem path_str read_text b64decode Image_open rgba_data print
    done
  /\ main_items stem path_str read_text b64decode Image_open rgba_data print
       svg_files =
     main_items stem path_str read_text b64decode Image_open rgba_data print
       done
  /\ report stem path_str read_text b64decode Image_open rgba_data print
       svg_files =
     report stem path_str read_text b64decode Image_open rgba_data print done.
Proof.
  intros Hret done. subst done.
  destruct (processed_run svg_files Hret) as [Hret' Hitems].
  split; [exact Hret'|]. split; [exact Hitems|].
  unfold report. rewrite Hitems. reflexivity.
Qed.

(** X15: whatever the identifiers, in a loop that no exception leaves the
    entry under a name is the result of the last asset of that identifier
    whose extraction returned, the name being one that the console shows; an
    earlier one is overwritten. *)
Theorem report_last_success_wins
    (svg_files : list Path) (name : string) (r : AssetPaletteResult) :
  loop_returns stem path_str read_text b64decode Image_open rgba_data print
    svg_files ->
  report stem path_str read_text b64decode Image_open rgba_data print
    svg_files !! name = Some r <->
  exists l1 p l2,
    svg_files = l1 ++ p :: l2 /\ stem p = name /\
    is_Ok (print (Processing name)) /\
    process_asset path_str read_text b64decode Image_open rgba_data p = Ok r /\
    forall p', p' ∈ l2 -> stem p' = name ->
      ~ is_Ok (process_asset path_str read_text b64decode Image_open
                 rgba_data p').
Proof.
  intros Hret. rewrite (report_lookup_last _ _ _ _ _ _ _ _ _ _ Hret). split.
  - intros (l1 & p & l2 & E & Hs & Hr & Hlast).
    apply assigned_Ok in Hr as [Hpr Hr]. rewrite Hs in Hpr.
    exists l1, p, l2. repeat split; auto.
    intros p' Hp' Hs' Hok. apply (Hlast p' Hp' Hs').
    destruct (process p') as [r'|] eqn:Ep'; [|contradiction].
    assert (Hv : value p' = Ok r')
      by (apply assigned_Ok; rewrite Hs'; auto).
    rewrite Hv. exact I.
  - intros (l1 & p & l2 & E & Hs & Hpr & Hr & Hlast).
    exists l1, p, l2. repeat split; auto.
    + apply assigned_Ok. rewrite Hs. auto.
    + intros p' Hp' Hs' Hok. apply (Hlast p' Hp' Hs').
      destruct (value p') as [r'|] eqn:Ev; [|contradiction].
      apply assigned_Ok in Ev as [_ Ev]. rewrite Ev. exact I.
Qed.

(** Every item of [output] is there from the start or is the result of an
    extraction, however the loop ends. *)
Lemma loop_output_origin
    (l : list Path) (st : state) (x : string * AssetPaletteResult) :
  x ∈ output (loop l st).1 ->
  x ∈ output st \/ exists p, process p = Ok x.2.
Proof.
  revert st. induction l as [|p l IH]; intros st Hx; [left; exact Hx|].
  unfold main_loop in *. cbn [io_for] in Hx. unfold io_bind in Hx.
  pose proof (main_step_output stem path_str read_text b64decode Image_open
                rgba_data print p st) as Hout.
  destruct (step p st) as [st' res]. cbn [fst] in Hout.
  assert (Hin : x ∈ output st' ->
                x ∈ output st \/ exists p, process p = Ok x.2).
  { rewrite Hout. destruct (value p) as [r|] eqn:Ev; [|auto].
    intros H. apply elem_of_dict_set in H as [->|H]; [|auto].
    right. exists p. apply assigned_Ok in Ev as [_ Ev]. exact Ev. }
  destruct res as [[]|e].
  - destruct (IH st' Hx) as [H|H]; auto.
  - auto.
Qed.

Lemma report_value_origin
    (svg_files : list Path) (name : string) (r : AssetPaletteResult) :
  the_report svg_files !! name = Some r -> exists p, process p = Ok r.
Proof.
  unfold report, main_items, main_run. intros Hr.
  apply elem_of_list_to_map_2 in Hr.
  apply loop_output_origin in Hr as [Hr|Hr]; [|exact Hr].
  apply elem_of_nil in Hr. contradiction.
Qed.

Lemma process_asset_Ok (p : Path) (r : AssetPaletteResult) :
  process p = Ok r ->
  exists pixels palette,
    extract_color_palette pixels 5 100 = Ok palette /\
    r = {| colors := palette; colorCount := Z.of_nat (length palette) |}.
Proof.
  unfold process_asset.
  destruct (extract_png_from_svg _ _ _ p) as [png|]; [|discriminate]. simpl.
  destruct (Image_open png) as [img|]; [|discriminate]. simpl.
  destruct (rgba_data img) as [pixels|]; [|discriminate]. simpl.
  destruct (extract_color_palette pixels 5 100) as [palette|] eqn:E;
    [|discriminate].
  simpl. intros [= <-]. eauto.
Qed.

(** X16: every entry of the report, however the loop ends, has [colorCount]
    equal to the length of [colors] and at most 5, and each of its colors
    has a pixelCount of at least 100 and a percentage in [0, 100]. *)
Theorem report_entry_shape
    (svg_files : list Path) (name : string) (r : AssetPaletteResult) :
  report stem path_str read_text b64decode Image_open rgba_data print
    svg_files !! name = Some r ->
  colorCount r = Z.of_nat (length (colors r)) /\
  colorCount r <= 5 /\
  forall e, e ∈ colors r ->
    100 <= pixelCount e /\ (0 <= percentage e <= 100)%Q.
Proof.
  intros Hr. apply report_value_origin in Hr as (p & Hp).
  apply process_asset_Ok in Hp as (pixels & palette & Hpal & ->). simpl.
  split; [reflexivity|]. split.
  - rewrite extract_color_palette_ranked, slice_to_nonneg in Hpal by lia.
    injection Hpal as <-. rewrite length_fmap, length_take. lia.
  - intros e He.
    destruct (elem_of_palette _ _ _ _ _ Hpal He) as (q & Hq & Hc & ->).
    simpl. split; [exact Hc|].
    assert (Hx : (q, color_count q pixels) ∈ ranked pixels 100)
      by (apply elem_of_ranked; auto).
    destruct (ranked_count_bounds _ _ _ Hx) as [Hb HT].
    apply (percent_of_bounds _ _ Hb HT).
Qed.

Lemma count_lines_app (P : console_line -> Prop) `{!forall c, Decision (P c)}
    (l1 l2 : list console_line) :
  count_lines P (l1 ++ l2) = (count_lines P l1 + count_lines P l2)%nat.
Proof. unfold count_lines. rewrite filter_app, length_app. reflexivity. Qed.

(** The lines of an iteration that returns. *)
Lemma console_step (p : Path) (st : state) :
  is_Ok (step p st).2 ->
  let n := if decide (is_Ok (value p)) then 1%nat else 0%nat in
  exists lines,
    console (step p st).1 = console st ++ lines /\
    (count_lines is_found_line lines + count_lines is_error_line lines
     = 1)%nat /\
    (count_lines is_found_line lines <= n)%nat /\
    (n <= count_lines is_processing_line lines)%nat /\
    (count_lines is_processing_line lines <= 1)%nat /\
    ((forall k, is_Ok (print (Found k))) ->
     count_lines is_found_line lines = n).
Proof.
  rewrite main_step_eq. unfold assigned.
  destruct (print (Processing (stem p))) as [[]|e0]; cbn [bind].
  - destruct (process p) as [r|e]; cbn zeta.
    + destruct (print (Found (colorCount r))) as [[]|e] eqn:Ef.
      * intros _. exists [Processing (stem p); Found (colorCount r)].
        cbn [console]. rewrite <- app_assoc.
        repeat split; try reflexivity; vm_compute; lia.
      * rewrite io_print_result, io_print_console. intros Hpr.
        rewrite decide_True by exact Hpr. cbn [console].
        exists [Processing (stem p); Error e].
        rewrite <- app_assoc.
        repeat split; try reflexivity; try (vm_compute; lia).
        intros Hall. specialize (Hall (colorCount r)).
        rewrite Ef in Hall. contradiction.
    + rewrite io_print_result, io_print_console. intros Hpr.
      rewrite decide_True by exact Hpr. cbn [console].
      exists [Processing (stem p); Error e].
      rewrite <- app_assoc.
      repeat split; try reflexivity; vm_compute; lia.
  - rewrite io_print_result, io_print_console. intros Hpr.
    rewrite decide_True by exact Hpr.
    exists [Error e0].
    repeat split; try reflexivity; vm_compute; lia.
Qed.

(** X17: in a loop that no exception leaves, every asset has exactly one
    outcome line on the console, a line with the number of colors found or
    an error line; the lines with a number are at most as many as the
    assets that reached the assignment (the [print] after the assignment may
    raise, which gives an error line for an asset that is in the report),
    these at most as many as the lines that name an asset, and these at most
    as many as the assets; when every line with a number can be printed,
    such lines and the assets in question are equally many. *)
Theorem console_lines (svg_files : list Path) :
  loop_returns stem path_str read_text b64decode Image_open rgba_data print
    svg_files ->
  let c :=
    main_console stem path_str read_text b64decode Image_open rgba_data print
      svg_files in
  let done :=
    processed stem path_str read_text b64decode Image_open rgba_data print
      svg_files in
  (count_lines is_found_line c + count_lines is_error_line c
   = length svg_files)%nat
  /\ (count_lines is_found_line c <= length done)%nat
  /\ (length done <= count_lines is_processing_line c)%nat
  /\ (count_lines is_processing_line c <= length svg_files)%nat
  /\ ((forall k, is_Ok (print (Found k))) ->
      count_lines is_found_line c = length done).
Proof.
  intros Hret c done. subst c done.
  induction svg_files as [|p l IH] using rev_ind.
  - repeat split; reflexivity.
  - apply returns_snoc in Hret as [Hret Hstep].
    destruct (IH Hret) as (IH1 & IH2 & IH3 & IH4 & IH5). clear IH.
    destruct (console_step p _ Hstep)
      as (lines & Hc & H1 & H2 & H3 & H4 & H5).
    assert (Ec : the_console (l ++ [p]) = the_console l ++ lines).
    { unfold main_console in *. rewrite run_snoc.
      unfold loop_returns in Hret.
      destruct (run l) as [st [[]|e]]; [exact Hc|contradiction]. }
    rewrite Ec, processed_snoc, !count_lines_app, !length_app.
    assert (En : length (if decide (is_Ok (value p)) then [p] else []) =
                 if decide (is_Ok (value p)) then 1%nat else 0%nat)
      by (destruct (decide (is_Ok (value p))); reflexivity).
    rewrite En. cbn [length].
    repeat split; try lia.
    intros Hall. rewrite (IH5 Hall), (H5 Hall). reflexivity.
Qed.

(** X18: in a loop that no exception leaves, the items of [output] in
    insertion order hold the report, no key twice; the keys are the
    identifiers of the assets that reached the assignment, in order of first
    assignment, and the asset of the closing example is the first of these
    assets (none when there is none). *)
Theorem main_items_order (svg_files : list Path) :
  loop_returns stem path_str read_text b64decode Image_open rgba_data print
    svg_files ->
  let output_items :=
    main_items stem path_str read_text b64decode Image_open rgba_data print
      svg_files in
  let done :=
    processed stem path_str read_text b64decode Image_open rgba_data print
      svg_files in
  list_to_map output_items =
    report stem path_str read_text b64decode Image_open rgba_data print
      svg_files
  /\ NoDup output_items.*1
  /\ (forall name r,
        (name, r) ∈ output_items <->
        report stem path_str read_text b64decode Image_open rgba_data print
          svg_files !! name = Some r)
  /\ output_items.*1 = distinct (stem <$> done)
  /\ first_resco stem path_str read_text b64decode Image_open rgba_data print
       svg_files =
     stem <$> head done.
Proof.
  intros Hret output_items done. subst output_items done.
  pose proof (items_keys _ _ _ _ _ _ _ _ Hret) as Hkeys.
  assert (Hnd : NoDup (items svg_files).*1)
    by (rewrite Hkeys; apply NoDup_distinct).
  split; [reflexivity|]. split; [exact Hnd|]. split; [|split].
  - intros name r. unfold report. apply elem_of_list_to_map, Hnd.
  - exact Hkeys.
  - unfold first_resco. rewrite Hkeys.
    destruct (the_processed svg_files); reflexivity.
Qed.

Lemma returns_when_errors_shown (svg_files : list Path) :
  (forall e, is_Ok (print (Error e))) -> returns svg_files.
Proof.
  intros Hall.
  induction svg_files as [|p l IH] using rev_ind; [exact I|].
  apply returns_snoc. split; [exact IH|].
  rewrite main_step_eq.
  destruct (print (Processing (stem p))) as [[]|e0];
    [|rewrite io_print_result; apply Hall].
  destruct (process p) as [r|e]; cbn zeta;
    [|rewrite io_print_result; apply Hall].
  destruct (print (Found (colorCount r))) as [[]|e];
    [exact I|rewrite io_print_result; apply Hall].
Qed.


Lemma run_middle (l1 l2 : list Path) (p : Path) (e : exception) :
  returns l1 -> (step p (run l1).1).2 = Raise e ->
  run (l1 ++ p :: l2) = ((step p (run l1).1).1, Raise e).
Proof.
  unfold loop_returns, main_run, main_loop. rewrite io_for_app.
  unfold io_bind at 1.
  destruct (io_for _ l1 _) as [st [[]|e0]]; [|contradiction].
  intros _. cbn [fst io_for]. unfold io_bind.
  destruct (step p st) as [st' res]. simpl. intros ->. reflexivity.
Qed.

(** X20: when an exception reaches the [except] clause of an asset and the
    error line cannot be printed either, the exception of that [print]
    leaves the loop and the assets after it are not looked at: [output] is
    as the assets before it left it when the exception was raised before the
    assignment, and has the value of the asset under its identifier when the
    [print] after the assignment raised it. *)
Theorem unshown_error_leaves_loop (l1 l2 : list Path) (p : Path) :
  loop_returns stem path_str read_text b64decode Image_open rgba_data print
    l1 ->
  let value :=
    assigned stem path_str read_text b64decode Image_open rgba_data print in
  let before :=
    main_items stem path_str read_text b64decode Image_open rgba_data print
      l1 in
  let after :=
    main_run stem path_str read_text b64decode Image_open rgba_data print
      (l1 ++ p :: l2) in
  (forall e e',
     value p = Raise e -> print (Error e) = Raise e' ->
     after.2 = Raise e' /\ output after.1 = before)
  /\ (forall r e e',
        value p = Ok r -> print (Found (colorCount r)) = Raise e ->
        print (Error e) = Raise e' ->
        after.2 = Raise e' /\ output after.1 = dict_set (stem p) r before).
Proof.
  intros Hret value0 before after. subst value0 before after. split.
  - intros e e' Ev Hpr.
    rewrite (run_middle l1 l2 p e' Hret)
      by (rewrite (main_step_caught _ _ _ _ _ _ _ _ _ _ Ev); exact Hpr).
    split; [reflexivity|]. cbn [fst]. rewrite main_step_output, Ev.
    reflexivity.
  - intros r e e' Ev Hf Hpr.
    rewrite (run_middle l1 l2 p e' Hret)
      by (rewrite (main_step_caught_late _ _ _ _ _ _ _ _ _ _ _ Ev Hf);
          exact Hpr).
    split; [reflexivity|]. cbn [fst]. rewrite main_step_output, Ev.
    reflexivity.
Qed.

End MainExtras.

(** On a console that shows every line the loop always returns, and the
    assets that reach the assignment are those whose extraction returns. *)
Lemma print_all_loop_returns {Path Bytes Image : Type}
    (stem path_str : Path -> string) (read_text : Path -> result string)
    (b64decode : string -> result Bytes) (Image_open : Bytes -> result Image)
    (rgba_data : Image -> result (list pixel)) (svg_files : list Path) :
  loop_returns stem path_str read_text b64decode Image_open rgba_data
    print_all svg_files /\
  processed stem path_str read_text b64decode Image_open rgba_data print_all
    svg_files =
  filter (fun p => is_Ok (process_asset path_str read_text b64decode
                            Image_open rgba_data p)) svg_files.
Proof.
  split; [apply returns_when_errors_shown; intros e; exact I|reflexivity].
Qed.

Lemma report_ignores_failures_witness :
  loop_returns id id sample_read_text sample_b64decode sample_open sample_data
    sample_print sample_files /\
  processed id id sample_read_text sample_b64decode sample_open sample_data
    sample_print sample_files = ["icon"%string] /\
  report id id sample_read_text sample_b64decode sample_open sample_data
    sample_print sample_files =
  report id id sample_read_text sample_b64decode sample_open sample_data
    sample_print ["icon"%string].
Proof.
  assert (Hret : loop_returns id id sample_read_text sample_b64decode
                   sample_open sample_data sample_print sample_files)
    by (vm_compute; exact I).
  split; [exact Hret|]. split; [vm_compute; reflexivity|].
  exact (proj2 (proj2 (report_ignores_failures id id sample_read_text
                         sample_b64decode sample_open sample_data
                         sample_print sample_files Hret))).
Defined.

Lemma report_last_success_wins_witness :
  loop_returns id id sample_read_text sample_b64decode sample_open sample_data
    sample_print sample_files /\
  report id id sample_read_text sample_b64decode sample_open sample_data
    sample_print sample_files !! "icon"%string =
  Some {| colors := []; colorCount := 0 |}.
Proof.
  assert (Hret : loop_returns id id sample_read_text sample_b64decode
                   sample_open sample_data sample_print sample_files)
    by (vm_compute; exact I).
  split; [exact Hret|].
  apply (report_last_success_wins id id sample_read_text sample_b64decode
           sample_open sample_data sample_print sample_files _ _ Hret).
  exists ["broken"%string], "icon"%string, ["unprintable"%string].
  split; [reflexivity|]. split; [reflexivity|].
  split; [vm_compute; exact I|]. split; [vm_compute; reflexivity|].
  intros p' Hp' Hs. unfold id in Hs. subst p'.
  apply list_elem_of_singleton in Hp'. discriminate.
Defined.

Lemma report_entry_shape_witness :
  exists r,
    report id id sample_read_text sample_b64decode sample_open_600 sample_data
      sample_print sample_files !! "icon"%string = Some r /\
    colorCount r = 3 /\ colorCount r = Z.of_nat (length (colors r)) /\
    colorCount r <= 5.
Proof.
  assert (Hr : exists r,
             report id id sample_read_text sample_b64decode sample_open_600
               sample_data sample_print sample_files !! "icon"%string
             = Some r /\
             colorCount r = 3).
  { eexists. split; [vm_compute; reflexivity|reflexivity]. }
  destruct Hr as (r & Hr & H3). exists r.
  destruct (report_entry_shape id id sample_read_text sample_b64decode
              sample_open_600 sample_data sample_print sample_files _ r Hr)
    as (Hlen & H5 & _).
  auto.
Defined.

Lemma console_lines_witness :
  loop_returns id id sample_read_text sample_b64decode sample_open sample_data
    sample_print sample_files /\
  main_console id id sample_read_text sample_b64decode sample_open sample_data
    sample_print sample_files =
  [Processing "broken"; Error (ValueError "No PNG data found in broken");
   Processing "icon"; Found 0; Error (OtherError "UnicodeEncodeError")] /\
  (count_lines is_found_line
     (main_console id id sample_read_text sample_b64decode sample_open
        sample_data sample_print sample_files)
   + count_lines is_error_line
       (main_console id id sample_read_text sample_b64decode sample_open
          sample_data sample_print sample_files)
   = 3)%nat.
Proof.
  assert (Hret : loop_returns id id sample_read_text sample_b64decode
                   sample_open sample_data sample_print sample_files)
    by (vm_compute; exact I).
  split; [exact Hret|]. split; [vm_compute; reflexivity|].
  exact (proj1 (console_lines id id sample_read_text sample_b64decode
                  sample_open sample_data sample_print sample_files Hret)).
Defined.

Lemma main_items_order_witness :
  loop_returns id id sample_read_text sample_b64decode sample_open sample_data
    sample_print sample_files /\
  (main_items id id sample_read_text sample_b64decode sample_open sample_data
     sample_print sample_files).*1 = ["icon"%string] /\
  first_resco id id sample_read_text sample_b64decode sample_open sample_data
    sample_print sample_files = Some "icon"%string.
Proof.
  assert (Hret : loop_returns id id sample_read_text sample_b64decode
                   sample_open sample_data sample_print sample_files)
    by (vm_compute; exact I).
  split; [exact Hret|].
  destruct (main_items_order id id sample_read_text sample_b64decode
              sample_open sample_data sample_print sample_files Hret)
    as (_ & _ & _ & Hkeys & Hfirst).
  split.
  - rewrite Hkeys. vm_compute. reflexivity.
  - rewrite Hfirst. vm_compute. reflexivity.
Defined.


Lemma unshown_error_leaves_loop_witness :
  loop_returns id id sample_read_text sample_b64decode sample_open sample_data
    print_ascii [] /\
  (main_run id id sample_read_text sample_b64decode sample_open sample_data
     print_ascii ["broken"; "icon"]%string).2 =
  Raise (OtherError "UnicodeEncodeError") /\
  output (main_run id id sample_read_text sample_b64decode sample_open
            sample_data print_ascii ["broken"; "icon"]%string).1 = [].
Proof.
  assert (Hret : loop_returns id id sample_read_text sample_b64decode
                   sample_open sample_data print_ascii [])
    by exact I.
  split; [exact Hret|].
  apply (proj1 (unshown_error_leaves_loop id id sample_read_text
                  sample_b64decode sample_open sample_data print_ascii
                  [] ["icon"%string] "broken"%string Hret)
           (ValueError "No PNG data found in broken")
           (OtherError "UnicodeEncodeError")).
  - reflexivity.
  - reflexivity.
Defined.
